(** * FEM1: one-dimensional finite elements with Lagrange bases of order 1-3

    A shallow embedding of [src/lab1/FEM1.h] (class [FEM<dim>], used with
    [dim = 1]) and the properties of its basis evaluator, quadrature table,
    element assembler, Dirichlet map and error evaluator.

    The member functions are translated once, over an interface [Double] of
    the arithmetic the source performs on C++ [double]s.  The interface has
    two instances:
    - [R_double]: the real numbers, the exact semantics in which the
      mathematical properties (interpolation, partition of unity,
      derivatives, integrals) are stated and proved;
    - [binary64]: the kernel's IEEE 754 binary64 numbers, with which the
      same definitions run and the tables of the source are evaluated bit
      for bit. *)

From Stdlib Require Import Floats ZArith Reals Lra Lia.
From stdpp Require Import base option list gmap.

Set Default Proof Using "Type".

(** ** The arithmetic of [double] *)

Class Double (T : Type) := {
  (** an integer converted to [double] (integer literals, [unsigned int]
      operands of mixed expressions) *)
  of_Z : Z -> T;
  (** the decimal literal [m * 10^e] ([0.001] is [lit 1 (-3)], [1e11] is
      [lit 1 11], [2.] is [lit 2 0]) *)
  lit : Z -> Z -> T;
  dadd : T -> T -> T;
  dsub : T -> T -> T;
  dmul : T -> T -> T;
  ddiv : T -> T -> T;
  dopp : T -> T;
  dsqrt : T -> T;
  (** [==] on doubles *)
  deqb : T -> T -> bool
}.

Declare Scope double_scope.
Delimit Scope double_scope with D.
Infix "+" := dadd : double_scope.
Infix "-" := dsub : double_scope.
Infix "*" := dmul : double_scope.
Infix "/" := ddiv : double_scope.
Notation "- x" := (dopp x) : double_scope.
Infix "==" := deqb (at level 70, no associativity) : double_scope.

Definition of_nat `{Double T} (n : nat) : T := of_Z (Z.of_nat n).

(** ** Failures

    [exit(0)] after a message on [std::cout], a failed [assert], and the two
    undefined behaviours the code can run into (an index past the end of a
    vector, a local variable read before it is assigned) all end the
    computation; they are kept apart so that theorems can say which one
    happened. *)

Inductive failure :=
| ExitProblemNumber
    (** "Error: problem number should be 1 or 2." then [exit(0)] *)
| ExitNodeNumber (dealNode nNodes : nat)
    (** "Error: you input node number [dealNode] but there are only
        [nNodes] nodes in an element." then [exit(0)] *)
| AssertFailed
    (** [assert(node==1)] in [basis_gradient] *)
| OutOfRange
    (** [operator[]] past the end of a vector *)
| Uninitialized
    (** a local variable read before any assignment *).

Inductive result (A : Type) :=
| Ok (a : A)
| Fail (e : failure).

Arguments Ok {A} a.
Arguments Fail {A} e.

Definition bind {A B} (m : result A) (k : A -> result B) : result B :=
  match m with
  | Ok a => k a
  | Fail e => Fail e
  end.

#[export] Instance result_ret : MRet result := fun _ a => Ok a.
#[export] Instance result_bind : MBind result := fun _ _ k m => bind m k.

(** [for (unsigned int i = lo; i < lo + count; ++i) body] over a loop state. *)
Fixpoint for_loop {St} (lo count : nat) (body : nat -> St -> result St)
  (s : St) : result St :=
  match count with
  | O => Ok s
  | S c => s' ← body lo s; for_loop (S lo) c body s'
  end.

(** [v[i]] for a [std::vector] or a deal.II [Vector]. *)
Definition at_index {A} (v : list A) (i : nat) : result A :=
  match v !! i with
  | Some x => Ok x
  | None => Fail OutOfRange
  end.

(** ** The class [FEM] *)

Section FEM.
Context {T : Type} `{Double T}.
Local Open Scope double_scope.

(** [v[i] += x] *)
Definition add_at (v : list T) (i : nat) (x : T) : result (list T) :=
  y ← at_index v i; Ok (<[i := y + x]> v).

(** [m[i][j] += x] for a [FullMatrix], kept as the list of its rows. *)
Definition add_at2 (m : list (list T)) (i j : nat) (x : T)
  : result (list (list T)) :=
  row ← at_index m i; row' ← add_at row j x; Ok (<[i := row']> m).

(** What [dof_handler] holds once [distribute_dofs] has run: for each active
    cell the global numbers of its local degrees of freedom (what
    [get_dof_indices] copies out), and the support point of every global
    degree of freedom (what [map_dofs_to_support_points] returns). *)
Record DoFHandler := {
  active_cells : list (list nat);
  support_points : list T
}.

Definition n_dofs (dh : DoFHandler) : nat := length (support_points dh).

(** The sparse matrix [K]: the entries that were written; every other entry
    of the pattern is zero. *)
Definition SparseMatrix := gmap (nat * nat) T.

Definition K_entry (k : SparseMatrix) (i j : nat) : T :=
  default (of_Z 0) (k !! (i, j)).

(** [K.add(i,j,x)] *)
Definition K_add (k : SparseMatrix) (i j : nat) (x : T) : SparseMatrix :=
  <[(i, j) := K_entry k i j + x]> k.

(** The data members of [FEM<1>].  [basisFunctionOrder] and [prob] are
    declared [double] but only ever hold the constructor's [unsigned int]
    arguments; that conversion is exact, so they are kept as the naturals
    they hold and converted with [of_nat] where the source uses them in
    [double] arithmetic. *)
Record FEM := {
  dof_handler : DoFHandler;
  quadRule : nat;
  quad_points : list T;
  quad_weight : list T;
  K : SparseMatrix;
  D : list T;
  F : list T;
  nodeLocation : list T;
  boundary_values : gmap nat T;
  basisFunctionOrder : nat;
  prob : nat;
  L : T;
  g1 : T;
  g2 : T;
  E : T;
  f : T;
  h : T
}.

(** [fe.dofs_per_cell] for [FESystem<1>(FE_Q<1>(order), 1)]. *)
Definition dofs_per_cell (st : FEM) : nat := S (basisFunctionOrder st).

(** The constructor.  The members it leaves unassigned ([L], [g1], ...,
    the quadrature table) are given zeros and empty vectors here; the source
    assigns each of them in [generate_mesh] or [setup_system] before any
    read.  What [FE_Q<dim>(order)] makes of the order in the member
    initialisers is deal.II's; the body tests the problem number only. *)
Definition FEM_new (order problem : nat) : result FEM :=
  if bool_decide (problem = 1%nat) || bool_decide (problem = 2%nat) then
    Ok {| dof_handler := {| active_cells := []; support_points := [] |};
          quadRule := 0; quad_points := []; quad_weight := [];
          K := ∅; D := []; F := [];
          nodeLocation := []; boundary_values := ∅;
          basisFunctionOrder := order; prob := problem;
          L := of_Z 0; g1 := of_Z 0; g2 := of_Z 0;
          E := of_Z 0; f := of_Z 0; h := of_Z 0 |}
  else Fail ExitProblemNumber.

(** [xi_at_node] *)
Definition xi_at_node (st : FEM) (dealNode : nat) : result T :=
  if bool_decide (dealNode = 0%nat) then Ok (- lit 1 0)
  else if bool_decide (dealNode = 1%nat) then Ok (lit 1 0)
  else if bool_decide (dealNode ≤ basisFunctionOrder st)%nat then
    Ok (- lit 1 0
        + lit 2 0 * (of_nat dealNode - lit 1 0)
          / of_nat (basisFunctionOrder st))
  else Fail (ExitNodeNumber dealNode (basisFunctionOrder st + 1)).

(** [basis_function]: the loop state is [value]. *)
Definition basis_function (st : FEM) (node : nat) (xi : T) : result T :=
  for_loop 0 (S (basisFunctionOrder st))
    (fun i value =>
       if bool_decide (i ≠ node) then
         xi_i ← xi_at_node st i;
         xi_n ← xi_at_node st node;
         xi_i' ← xi_at_node st i;
         Ok (value * ((xi - xi_i) / (xi_n - xi_i')))
       else Ok value)
    (lit 1 0).

(** [basis_gradient].  The three [if (basisFunctionOrder == k)] blocks run
    one after the other on [value]; inside the blocks for order 2 and 3 the
    [if (node == k)] statements assign the other nodes' coordinates, and a
    [node] matching none of them would leave [xi1], [xi2], [xi3]
    unassigned. *)
Definition basis_gradient (st : FEM) (node : nat) (xi : T) : result T :=
  let value := lit 0 0 in
  value ←
    (if bool_decide (basisFunctionOrder st = 1%nat) then
       if bool_decide (node = 0%nat) then Ok (- lit 1 0 / lit 2 0)
       else if bool_decide (node = 1%nat) then Ok (lit 1 0 / lit 2 0)
       else Fail AssertFailed
     else Ok value);
  value ←
    (if bool_decide (basisFunctionOrder st = 2%nat) then
       xi0 ← xi_at_node st node;
       '(xi1, xi2) ←
          (if bool_decide (node = 0%nat) then
             a ← xi_at_node st 1; b ← xi_at_node st 2; Ok (a, b)
           else if bool_decide (node = 1%nat) then
             a ← xi_at_node st 0; b ← xi_at_node st 2; Ok (a, b)
           else if bool_decide (node = 2%nat) then
             a ← xi_at_node st 0; b ← xi_at_node st 1; Ok (a, b)
           else Fail Uninitialized);
       let denum := (xi0 - xi1) * (xi0 - xi2) in
       Ok ((xi - xi2) / denum + (xi - xi1) / denum)
     else Ok value);
  value ←
    (if bool_decide (basisFunctionOrder st = 3%nat) then
       xi0 ← xi_at_node st node;
       '(xi1, xi2, xi3) ←
          (if bool_decide (node = 0%nat) then
             a ← xi_at_node st 1; b ← xi_at_node st 2; c ← xi_at_node st 3;
             Ok (a, b, c)
           else if bool_decide (node = 1%nat) then
             a ← xi_at_node st 0; b ← xi_at_node st 2; c ← xi_at_node st 3;
             Ok (a, b, c)
           else if bool_decide (node = 2%nat) then
             a ← xi_at_node st 0; b ← xi_at_node st 1; c ← xi_at_node st 3;
             Ok (a, b, c)
           else if bool_decide (node = 3%nat) then
             a ← xi_at_node st 0; b ← xi_at_node st 1; c ← xi_at_node st 2;
             Ok (a, b, c)
           else Fail Uninitialized);
       let denum := (xi0 - xi1) * (xi0 - xi2) * (xi0 - xi3) in
       Ok ((xi - xi2) * (xi - xi3) / denum
           + (xi - xi1) * (xi - xi3) / denum
           + (xi - xi1) * (xi - xi2) / denum)
     else Ok value);
  Ok value.

(** Assignments to data members. *)
Definition set_L (st : FEM) (x : T) : FEM :=
  {| dof_handler := dof_handler st; quadRule := quadRule st;
     quad_points := quad_points st; quad_weight := quad_weight st;
     K := K st; D := D st; F := F st; nodeLocation := nodeLocation st;
     boundary_values := boundary_values st;
     basisFunctionOrder := basisFunctionOrder st; prob := prob st;
     L := x; g1 := g1 st; g2 := g2 st; E := E st; f := f st; h := h st |}.

Definition set_boundary_values (st : FEM) (bv : gmap nat T) : FEM :=
  {| dof_handler := dof_handler st; quadRule := quadRule st;
     quad_points := quad_points st; quad_weight := quad_weight st;
     K := K st; D := D st; F := F st; nodeLocation := nodeLocation st;
     boundary_values := bv;
     basisFunctionOrder := basisFunctionOrder st; prob := prob st;
     L := L st; g1 := g1 st; g2 := g2 st; E := E st; f := f st; h := h st |}.

Definition set_KDF (st : FEM) (k : SparseMatrix) (d fv : list T) : FEM :=
  {| dof_handler := dof_handler st; quadRule := quadRule st;
     quad_points := quad_points st; quad_weight := quad_weight st;
     K := k; D := d; F := fv; nodeLocation := nodeLocation st;
     boundary_values := boundary_values st;
     basisFunctionOrder := basisFunctionOrder st; prob := prob st;
     L := L st; g1 := g1 st; g2 := g2 st; E := E st; f := f st; h := h st |}.

(** [generate_mesh]: the triangulation itself belongs to deal.II; what the
    class keeps of it is the domain length. *)
Definition generate_mesh (numberOfElements : nat) (st : FEM) : FEM :=
  set_L st (lit 1 (-1)).

(** [define_boundary_conds]: the loop state is [boundary_values]. *)
Definition define_boundary_conds (st : FEM) : result FEM :=
  let totalNodes := n_dofs (dof_handler st) in
  bv ← for_loop 0 totalNodes
    (fun globalNode bv =>
       x ← at_index (nodeLocation st) globalNode;
       let bv := if x == of_Z 0 then <[globalNode := g1 st]> bv else bv in
       x ← at_index (nodeLocation st) globalNode;
       Ok (if x == L st then
             if bool_decide (prob st = 1%nat) then <[globalNode := g2 st]> bv
             else bv
           else bv))
    (boundary_values st);
  Ok (set_boundary_values st bv).

(** The quadrature table of [setup_system]. *)
Definition gauss_points : list T :=
  [- lit 7745966692414834 (-16); lit 0 0; lit 7745966692414834 (-16)].

Definition gauss_weights : list T :=
  [lit 5555555555555557 (-16); lit 8888888888888888 (-16);
   lit 5555555555555557 (-16)].

(** [setup_system], given what [distribute_dofs] makes of the mesh. *)
Definition setup_system (dh : DoFHandler) (st : FEM) : result FEM :=
  let st :=
    {| dof_handler := dh; quadRule := quadRule st;
       quad_points := quad_points st; quad_weight := quad_weight st;
       K := K st; D := D st; F := F st;
       nodeLocation := support_points dh;
       boundary_values := boundary_values st;
       basisFunctionOrder := basisFunctionOrder st; prob := prob st;
       L := L st; g1 := of_Z 0; g2 := lit 1 (-3); E := lit 1 11;
       f := lit 1 11; h := lit 1 10 |} in
  st ← define_boundary_conds st;
  Ok {| dof_handler := dof_handler st; quadRule := 3;
        quad_points := gauss_points; quad_weight := gauss_weights;
        K := ∅; D := replicate (n_dofs dh) (of_Z 0);
        F := replicate (n_dofs dh) (of_Z 0);
        nodeLocation := nodeLocation st;
        boundary_values := boundary_values st;
        basisFunctionOrder := basisFunctionOrder st; prob := prob st;
        L := L st; g1 := g1 st; g2 := g2 st; E := E st; f := f st;
        h := h st |}.

(** *** [assemble_system], one element at a time *)

(** [nodeLocation[local_dof_indices[A]]] *)
Definition node_x (st : FEM) (local_dof_indices : list nat) (A : nat)
  : result T :=
  g ← at_index local_dof_indices A; at_index (nodeLocation st) g.

(** [h_e = nodeLocation[local_dof_indices[1]] - nodeLocation[local_dof_indices[0]]] *)
Definition element_length (st : FEM) (local_dof_indices : list nat)
  : result T :=
  x1 ← node_x st local_dof_indices 1;
  x0 ← node_x st local_dof_indices 0;
  Ok (x1 - x0).

(** The loop over [B] that interpolates the nodal coordinates at [xi]. *)
Definition interpolate_x (st : FEM) (local_dof_indices : list nat) (xi : T)
  : result T :=
  for_loop 0 (dofs_per_cell st)
    (fun B x =>
       xB ← node_x st local_dof_indices B;
       N ← basis_function st B xi;
       Ok (x + xB * N))
    (of_Z 0).

(** The loops over [A] and [q] that fill [Flocal]. *)
Definition load_integrals (st : FEM) (local_dof_indices : list nat) (h_e : T)
  : result (list T) :=
  let dofs_per_elem := dofs_per_cell st in
  for_loop 0 dofs_per_elem
    (fun A Flocal =>
       for_loop 0 (quadRule st)
         (fun q Flocal =>
            xi ← at_index (quad_points st) q;
            x ← interpolate_x st local_dof_indices xi;
            let f := lit 1 0 * x in
            xi ← at_index (quad_points st) q;
            N ← basis_function st A xi;
            w ← at_index (quad_weight st) q;
            add_at Flocal A (h_e / lit 2 0 * N * w * f))
         Flocal)
    (replicate dofs_per_elem (lit 0 0)).

(** "Add nonzero Neumann condition, if applicable" *)
Definition neumann_condition (st : FEM) (local_dof_indices : list nat)
  (Flocal : list T) : result (list T) :=
  if bool_decide (prob st = 2%nat) then
    x1 ← node_x st local_dof_indices 1;
    if x1 == L st then add_at Flocal 1 (h st) else Ok Flocal
  else Ok Flocal.

(** The loops over [A], [B] and [q] that fill [Klocal]. *)
Definition stiffness_integrals (st : FEM) (h_e : T) : result (list (list T)) :=
  let dofs_per_elem := dofs_per_cell st in
  for_loop 0 dofs_per_elem
    (fun A Klocal =>
       for_loop 0 dofs_per_elem
         (fun B Klocal =>
            for_loop 0 (quadRule st)
              (fun q Klocal =>
                 xi ← at_index (quad_points st) q;
                 dA ← basis_gradient st A xi;
                 xi ← at_index (quad_points st) q;
                 dB ← basis_gradient st B xi;
                 w ← at_index (quad_weight st) q;
                 add_at2 Klocal A B (lit 2 0 / h_e * dA * dB * w))
              Klocal)
         Klocal)
    (replicate dofs_per_elem (replicate dofs_per_elem (of_Z 0))).

(** "Assemble local K and F into global K and F" *)
Definition scatter (st : FEM) (local_dof_indices : list nat)
  (Flocal : list T) (Klocal : list (list T))
  (KF : SparseMatrix * list T) : result (SparseMatrix * list T) :=
  for_loop 0 (dofs_per_cell st)
    (fun A '(k, fv) =>
       gA ← at_index local_dof_indices A;
       FA ← at_index Flocal A;
       fv ← add_at fv gA FA;
       k ← for_loop 0 (dofs_per_cell st)
         (fun B k =>
            gA ← at_index local_dof_indices A;
            gB ← at_index local_dof_indices B;
            row ← at_index Klocal A;
            KAB ← at_index row B;
            Ok (K_add k gA gB KAB))
         k;
       Ok (k, fv))
    KF.

(** The body of the loop over elements. *)
Definition assemble_element (st : FEM) (local_dof_indices : list nat)
  (KF : SparseMatrix * list T) : result (SparseMatrix * list T) :=
  h_e ← element_length st local_dof_indices;
  Flocal ← load_integrals st local_dof_indices h_e;
  Flocal ← neumann_condition st local_dof_indices Flocal;
  Klocal ← stiffness_integrals st h_e;
  scatter st local_dof_indices Flocal Klocal KF.

(** The loop over elements, from [K=0; F=0;]. *)
Fixpoint assemble_elements (st : FEM) (cells : list (list nat))
  (KF : SparseMatrix * list T) : result (SparseMatrix * list T) :=
  match cells with
  | [] => Ok KF
  | elem :: cells =>
      KF ← assemble_element st elem KF; assemble_elements st cells KF
  end.

(** [assemble_system]; [MatrixTools::apply_boundary_values] is deal.II's and
    is taken as given. *)
Definition assemble_system
  (apply_boundary_values :
     gmap nat T -> SparseMatrix -> list T -> list T ->
     SparseMatrix * list T * list T)
  (st : FEM) : result FEM :=
  '(k, fv) ← assemble_elements st (active_cells (dof_handler st))
               (∅, replicate (length (F st)) (of_Z 0));
  let '(k, d, fv) := apply_boundary_values (boundary_values st) k (D st) fv in
  Ok (set_KDF st k d fv).

(** [solve]; the sparse direct solver is deal.II's (UMFPACK). *)
Definition solve (umfpack : SparseMatrix -> list T -> list T) (st : FEM)
  : FEM :=
  set_KDF st (K st) (umfpack (K st) (F st)) (F st).

(** *** [l2norm_of_error] *)

(** The exact solution at [x].  [u_exact] is assigned under
    [if (prob==1)] and under [if (prob==2)] and is a local variable of the
    function: with any other [prob] it would keep what the previous
    quadrature point left in it, and have no value at the first one. *)
Definition exact_solution (st : FEM) (u_exact : option T) (x : T)
  : option T :=
  let u_exact :=
    if bool_decide (prob st = 1%nat) then
      Some (- x * x * x * of_Z 100000000000 / (lit 6 0 * E st)
            + (g2 st - g1 st
               + L st * L st * L st * of_Z 100000000000 / (lit 6 0 * E st))
              / L st * x
            + g1 st)
    else u_exact in
  if bool_decide (prob st = 2%nat) then
    Some (- x * x * x / (lit 6 0 * E st)
          + (h st + lit 5 (-1) * L st * L st) * x
          + g1 st)
  else u_exact.

(** The loop over [B] that interpolates [x] and [u_h] at [xi]. *)
Definition interpolate_x_u (st : FEM) (local_dof_indices : list nat) (xi : T)
  : result (T * T) :=
  for_loop 0 (dofs_per_cell st)
    (fun B '(x, u_h) =>
       xB ← node_x st local_dof_indices B;
       N ← basis_function st B xi;
       let x := x + xB * N in
       gB ← at_index local_dof_indices B;
       dB ← at_index (D st) gB;
       N ← basis_function st B xi;
       Ok (x, u_h + dB * N))
    (lit 0 0, lit 0 0).

(** The body of the loop over elements; the loop state is [l2norm] and
    [u_exact]. *)
Definition error_element (st : FEM) (local_dof_indices : list nat)
  (acc : T * option T) : result (T * option T) :=
  h_e ← element_length st local_dof_indices;
  for_loop 0 (quadRule st)
    (fun q '(l2norm, u_exact) =>
       xi ← at_index (quad_points st) q;
       '(x, u_h) ← interpolate_x_u st local_dof_indices xi;
       let u_exact := exact_solution st u_exact x in
       match u_exact with
       | None => Fail Uninitialized
       | Some u =>
           w ← at_index (quad_weight st) q;
           Ok (l2norm + (u_h - u) * (u_h - u) * h_e / lit 2 0 * w, u_exact)
       end)
    acc.

Fixpoint error_elements (st : FEM) (cells : list (list nat))
  (acc : T * option T) : result (T * option T) :=
  match cells with
  | [] => Ok acc
  | elem :: cells =>
      acc ← error_element st elem acc; error_elements st cells acc
  end.

(** The value of [l2norm] when the loop over elements ends. *)
Definition l2norm_squared (st : FEM) : result T :=
  acc ← error_elements st (active_cells (dof_handler st)) (lit 0 0, None);
  Ok (fst acc).

Definition l2norm_of_error (st : FEM) : result T :=
  l2norm ← l2norm_squared st; Ok (dsqrt l2norm).

End FEM.
Arguments DoFHandler T : clear implicits.
Arguments FEM T : clear implicits.
Arguments SparseMatrix T : clear implicits.

(** What a driver runs before assembly: the constructor, [generate_mesh]
    and [setup_system] on the degrees of freedom of the mesh. *)
Definition prepare `{Double T} (order problem numberOfElements : nat)
  (dh : DoFHandler T) : result (FEM T) :=
  st ← FEM_new order problem;
  setup_system dh (generate_mesh numberOfElements st).

(** ** The two instances *)

Definition Reqb (x y : R) : bool := if Req_dec_T x y then true else false.

#[export] Instance R_double : Double R := {|
  of_Z := IZR;
  lit m e :=
    if (0 <=? e)%Z then IZR (m * 10 ^ e)
    else (IZR m / IZR (10 ^ (- e)))%R;
  dadd := Rplus; dsub := Rminus; dmul := Rmult; ddiv := Rdiv;
  dopp := Ropp; dsqrt := R_sqrt.sqrt; deqb := Reqb
|}.

(** An integer of magnitude below [2^63] as a binary64 number (rounded to
    nearest when it has more than 53 significant bits). *)
Definition float_of_Z (z : Z) : float :=
  match z with
  | Zneg p => PrimFloat.opp (PrimFloat.of_uint63 (Uint63.of_Z (Zpos p)))
  | _ => PrimFloat.of_uint63 (Uint63.of_Z z)
  end.

(** A decimal literal [m * 10^e]: the integer itself when [e >= 0]; for
    [e < 0], when [m] and [10^-e] are both binary64 numbers, the correctly
    rounded quotient of the two, which is the binary64 number nearest to the
    literal. *)
#[export] Instance binary64 : Double float := {|
  of_Z := float_of_Z;
  lit m e :=
    if (0 <=? e)%Z then float_of_Z (m * 10 ^ e)
    else PrimFloat.div (float_of_Z m) (float_of_Z (10 ^ (- e)));
  dadd := PrimFloat.add; dsub := PrimFloat.sub;
  dmul := PrimFloat.mul; ddiv := PrimFloat.div;
  dopp := PrimFloat.opp; dsqrt := PrimFloat.sqrt; deqb := PrimFloat.eqb
|}.

(** ** Specification-side definitions

    The quantities the design document names, written as it words them;
    the theorems below relate what the code computes to them. *)

Section Specification.
Context {T : Type} `{Double T}.
Local Open Scope double_scope.
Implicit Types (st : FEM T) (xi h_e : T) (local_dof_indices : list nat).

(** *** Reference basis *)

(** "referenceCoordinate(localNode, order)": -1 for local node 0, +1 for
    local node 1, and the equally spaced interior point
    [-1 + 2 (localNode - 1) / order] otherwise. *)
Definition referenceCoordinate (order localNode : nat) : T :=
  match localNode with
  | 0%nat => - lit 1 0
  | 1%nat => lit 1 0
  | _ => - lit 1 0 + lit 2 0 * (of_nat localNode - lit 1 0) / of_nat order
  end.

(** "basisValue(node, xi, order)": the Lagrange interpolation product over
    all other nodes, multiplied up from 1 in the order of the nodes. *)
Definition basisValue (order node : nat) (xi : T) : T :=
  foldl
    (fun value i =>
       value * ((xi - referenceCoordinate order i)
                / (referenceCoordinate order node
                   - referenceCoordinate order i)))
    (lit 1 0)
    (filter (fun i => i ≠ node) (seq 0 (S order))).

(** [v[i]], read as zero past the end of [v]. *)
Definition entry (v : list T) (i : nat) : T := default (of_Z 0) (v !! i).

(** A sum [t lo + ... + t (lo + n - 1)], added up from zero in this order. *)
Definition dsum (zero : T) (t : nat -> T) (lo n : nat) : T :=
  foldl (fun s i => s + t i) zero (seq lo n).

(** The value [basis_gradient] returns (zero where it fails, which on the
    local nodes of an element it does not). *)
Definition basisGradient st (node : nat) xi : T :=
  match basis_gradient st node xi with
  | Ok g => g
  | Fail _ => of_Z 0
  end.

(** *** Dirichlet constraint map *)

(** The value prescribed at a node of coordinate [x], if any: [g2] at the
    right end in problem 1 (the later of the two assignments), else [g1] at
    the left end. *)
Definition dirichlet_value (st : FEM T) (x : T) : option T :=
  if (x == L st) && bool_decide (prob st = 1%nat) then Some (g2 st)
  else if x == of_Z 0 then Some (g1 st)
  else None.

(** One turn of the loop of [define_boundary_conds]. *)
Definition boundary_step (st : FEM T) (globalNode : nat) (bv : gmap nat T)
  : gmap nat T :=
  match nodeLocation st !! globalNode with
  | Some x =>
      match dirichlet_value st x with
      | Some v => <[globalNode := v]> bv
      | None => bv
      end
  | None => bv
  end.

(** *** Element assembler *)

(** What the mesh provider guarantees of an element: one global degree of
    freedom per local node, each with a coordinate. *)
Definition cell_wf st local_dof_indices : Prop :=
  length local_dof_indices = dofs_per_cell st
  ∧ Forall (fun g => (g < length (nodeLocation st))%nat) local_dof_indices.

(** The quadrature table holds [quadRule] points and weights. *)
Definition quadrature_wf st : Prop :=
  (quadRule st ≤ length (quad_points st))%nat
  ∧ (quadRule st ≤ length (quad_weight st))%nat.

(** The coordinate of local node [A] of the element. *)
Definition nodeCoordinate st local_dof_indices (A : nat) : T :=
  entry (nodeLocation st) (default 0%nat (local_dof_indices !! A)).

(** "h_e = coordinate at local node 1 - coordinate at local node 0" *)
Definition elementLength st local_dof_indices : T :=
  nodeCoordinate st local_dof_indices 1 - nodeCoordinate st local_dof_indices 0.

(** "x_q is obtained by interpolating nodal coordinates with the basis
    functions evaluated at xi_q" *)
Definition physicalCoordinate st local_dof_indices xi : T :=
  dsum (of_Z 0)
    (fun B => nodeCoordinate st local_dof_indices B
              * basisValue (basisFunctionOrder st) B xi)
    0 (dofs_per_cell st).

(** "for each local node A, accumulate over quadrature points the product
    (h_e/2) basis(A, xi_q) weight_q f(x_q)", with [f] the source term
    [1. * x] of the code. *)
Definition loadIntegral st local_dof_indices h_e (A : nat) : T :=
  dsum (lit 0 0)
    (fun q =>
       h_e / lit 2 0
       * basisValue (basisFunctionOrder st) A (entry (quad_points st) q)
       * entry (quad_weight st) q
       * (lit 1 0
          * physicalCoordinate st local_dof_indices
              (entry (quad_points st) q)))
    0 (quadRule st).

(** The local load vector with the flux term: [h] is added to the entry of
    local node 1 when the problem is 2 and that node sits at [L]. *)
Definition fluxLoad st local_dof_indices (Flocal : list T) : list T :=
  if bool_decide (prob st = 2%nat)
     && (nodeCoordinate st local_dof_indices 1 == L st)
  then <[1%nat := entry Flocal 1 + h st]> Flocal
  else Flocal.

(** "for each pair (A,B), accumulate over quadrature points
    (2/h_e) basisGradient(A,xi_q) basisGradient(B,xi_q) weight_q" *)
Definition stiffnessIntegral st h_e (A B : nat) : T :=
  dsum (of_Z 0)
    (fun q =>
       lit 2 0 / h_e
       * basisGradient st A (entry (quad_points st) q)
       * basisGradient st B (entry (quad_points st) q)
       * entry (quad_weight st) q)
    0 (quadRule st).

Definition stiffnessMatrix st h_e : list (list T) :=
  map (fun A => map (stiffnessIntegral st h_e A) (seq 0 (dofs_per_cell st)))
      (seq 0 (dofs_per_cell st)).

(** "add each local load entry into the global vector at globalDOF(A)" *)
Definition scatterF st local_dof_indices (Flocal fv : list T) : list T :=
  foldl
    (fun fv A =>
       let gA := default 0%nat (local_dof_indices !! A) in
       <[gA := entry fv gA + entry Flocal A]> fv)
    fv (seq 0 (dofs_per_cell st)).

(** "add each local stiffness entry into the global matrix at
    (globalDOF(A), globalDOF(B))" *)
Definition scatterK st local_dof_indices (Klocal : list (list T))
  (k : SparseMatrix T) : SparseMatrix T :=
  foldl
    (fun k A =>
       foldl
         (fun k B =>
            K_add k (default 0%nat (local_dof_indices !! A))
              (default 0%nat (local_dof_indices !! B))
              (entry (default [] (Klocal !! A)) B))
         k (seq 0 (dofs_per_cell st)))
    k (seq 0 (dofs_per_cell st)).

(** The local load vector and stiffness matrix of an element, as the code
    scatters them. *)
Definition elementLoad st local_dof_indices : list T :=
  fluxLoad st local_dof_indices
    (map (loadIntegral st local_dof_indices
            (elementLength st local_dof_indices))
       (seq 0 (dofs_per_cell st))).

Definition elementStiffness st local_dof_indices : list (list T) :=
  stiffnessMatrix st (elementLength st local_dof_indices).

(** *** Error evaluator *)

(** "u_h(x_q)": the solution vector interpolated with the basis functions. *)
Definition solutionValue st local_dof_indices xi : T :=
  dsum (lit 0 0)
    (fun B => entry (D st) (default 0%nat (local_dof_indices !! B))
              * basisValue (basisFunctionOrder st) B xi)
    0 (dofs_per_cell st).

(** "x_q", as [l2norm_of_error] accumulates it (from [0.0]). *)
Definition errorCoordinate st local_dof_indices xi : T :=
  dsum (lit 0 0)
    (fun B => nodeCoordinate st local_dof_indices B
              * basisValue (basisFunctionOrder st) B xi)
    0 (dofs_per_cell st).

(** "u_exact(x)": what the code assigns to [u_exact] for the problem. *)
Definition exactSolution st (x : T) : T :=
  default (of_Z 0) (exact_solution st None x).

(** "(u_h - u_exact)^2 (h_e/2) weight_q", in the order the code multiplies. *)
Definition errorIntegrand st local_dof_indices (q : nat) : T :=
  let xi := entry (quad_points st) q in
  let u_h := solutionValue st local_dof_indices xi in
  let u_exact := exactSolution st (errorCoordinate st local_dof_indices xi) in
  (u_h - u_exact) * (u_h - u_exact) * elementLength st local_dof_indices
  / lit 2 0 * entry (quad_weight st) q.

(** The running total over the elements and their quadrature points. *)
Definition errorTotal st (cells : list (list nat)) (l2norm : T) : T :=
  foldl
    (fun l2norm local_dof_indices =>
       dsum l2norm (errorIntegrand st local_dof_indices) 0 (quadRule st))
    l2norm cells.

(** A solved state: a supported problem, the quadrature table, a mesh of
    well-formed elements, and a solution value per degree of freedom. *)
Definition solved_wf st : Prop :=
  (1 ≤ basisFunctionOrder st)%nat
  ∧ (prob st = 1%nat ∨ prob st = 2%nat)
  ∧ quadrature_wf st
  ∧ Forall (cell_wf st) (active_cells (dof_handler st))
  ∧ (length (nodeLocation st) ≤ length (D st))%nat.

End Specification.

(** The sum of a list of reals. *)
Definition Rsum (l : list R) : R := fold_right Rplus 0%R l.

(** "the sum, over all elements and all quadrature points q, of
    (u_h(x_q) - u_exact(x_q))^2 (h_e/2) weight_q", with [x_q] the coordinate
    that assembly interpolates. *)
Definition l2_error_integral (st : FEM R) : R :=
  Rsum
    (map
       (fun local_dof_indices =>
          Rsum
            (map
               (fun q =>
                  let xi := entry (quad_points st) q in
                  let x_q := physicalCoordinate st local_dof_indices xi in
                  let u_h := solutionValue st local_dof_indices xi in
                  ((u_h - exactSolution st x_q) ^ 2
                   * (elementLength st local_dof_indices / 2)
                   * entry (quad_weight st) q)%R)
               (seq 0 (quadRule st))))
       (active_cells (dof_handler st))).

(** *** Tables of the evaluator, for running it *)

(** [basis_function i] at the reference coordinate of node [j], on a fresh
    object of the given order. *)
Definition nodal_value `{Double T} (order i j : nat) : result T :=
  st ← FEM_new order 1;
  xi_j ← xi_at_node st j;
  basis_function st i xi_j.

(** The sum of [basis_function node xi] over the nodes of an element. *)
Definition basis_sum `{Double T} (order : nat) (xi : T) : result T :=
  st ← FEM_new order 1;
  for_loop 0 (S order)
    (fun node s => N ← basis_function st node xi; Ok (dadd s N))
    (of_Z 0).

(** The values of all basis functions at all nodes. *)
Definition nodal_table `{Double T} (order : nat) : list (list (result T)) :=
  map (fun i => map (nodal_value order i) (seq 0 (S order)))
      (seq 0 (S order)).

(** *** Further quantities *)

Section FurtherSpecification.
Context {T : Type} `{Double T}.
Local Open Scope double_scope.
Implicit Types (st : FEM T) (local_dof_indices : list nat).

(** [m[A][B]], read as zero outside [m]. *)
Definition entry2 (m : list (list T)) (A B : nat) : T :=
  entry (default [] (m !! A)) B.

(** The global degree of freedom of local node [A]. *)
Definition globalDOF local_dof_indices (A : nat) : nat :=
  default 0%nat (local_dof_indices !! A).


End FurtherSpecification.

(** ** Concrete objects

    The states on which the theorems are instantiated and the code is
    run. *)

(** An object of the given order over the reals, problem 1, before any
    mesh. *)
Definition order_state (order : nat) : FEM R :=
  {| dof_handler := {| active_cells := []; support_points := [] |};
     quadRule := 0; quad_points := []; quad_weight := [];
     K := ∅; D := []; F := []; nodeLocation := []; boundary_values := ∅;
     basisFunctionOrder := order; prob := 1;
     L := 0%R; g1 := 0%R; g2 := 0%R; E := 0%R; f := 0%R; h := 0%R |}.

(** Two linear elements on [0, 0.1], problem 1, as [setup_system] hands them
    to [define_boundary_conds]. *)
Definition two_elements : FEM float :=
  {| dof_handler :=
       {| active_cells := [[0; 1]; [1; 2]]%nat;
          support_points := [lit 0 0; lit 5 (-2); lit 1 (-1)] |};
     quadRule := 0; quad_points := []; quad_weight := [];
     K := ∅; D := []; F := [];
     nodeLocation := [lit 0 0; lit 5 (-2); lit 1 (-1)];
     boundary_values := ∅;
     basisFunctionOrder := 1; prob := 1;
     L := lit 1 (-1); g1 := of_Z 0; g2 := lit 1 (-3);
     E := lit 1 11; f := lit 1 11; h := lit 1 10 |}.

(** The same mesh over the reals. *)
Definition two_elements_R : DoFHandler R :=
  {| active_cells := [[0; 1]; [1; 2]]%nat;
     support_points := [lit 0 0; lit 5 (-2); lit 1 (-1)] |}.

(** One element of order 4 on [0, 0.1]. *)
Definition quartic_mesh : DoFHandler float :=
  {| active_cells := [[0; 1; 2; 3; 4]%nat];
     support_points :=
       [lit 0 0; lit 1 (-1); lit 25 (-3); lit 5 (-2); lit 75 (-3)] |}.

(** Two linear elements on [0, 0.1], problem 2, after set-up. *)
Definition flux_problem : FEM float :=
  Eval vm_compute in
    match prepare 1 2 2 (dof_handler two_elements) with
    | Ok st => st
    | Fail _ => two_elements
    end.

(** One linear element whose local node 0 lies at 0.1 and local node 1 at
    0: its length is negative. *)
Definition reversed_mesh : DoFHandler float :=
  {| active_cells := [[0; 1]%nat];
     support_points := [lit 1 (-1); lit 0 0] |}.

(** The object of order 1, problem 1, after set-up on it. *)
Definition reversed_element : FEM float :=
  Eval vm_compute in
    match prepare 1 1 1 reversed_mesh with
    | Ok st => st
    | Fail _ => two_elements
    end.

(** One linear element whose two nodes coincide. *)
Definition collapsed_mesh : DoFHandler float :=
  {| active_cells := [[0; 1]%nat];
     support_points := [lit 5 (-2); lit 5 (-2)] |}.

(** The object of order 1, problem 1, after set-up on it. *)
Definition collapsed_element : FEM float :=
  Eval vm_compute in
    match prepare 1 1 1 collapsed_mesh with
    | Ok st => st
    | Fail _ => two_elements
    end.

(** Two linear elements on [0, 0.1] over the reals, problem 1, with the
    nodal values of the straight line between the two prescribed ends. *)
Definition solved_line : FEM R :=
  {| dof_handler := two_elements_R;
     quadRule := 3; quad_points := gauss_points;
     quad_weight := gauss_weights;
     K := ∅; D := [lit 0 0; lit 5 (-4); lit 1 (-3)];
     F := [lit 0 0; lit 0 0; lit 0 0];
     nodeLocation := support_points two_elements_R;
     boundary_values := ∅;
     basisFunctionOrder := 1; prob := 1;
     L := lit 1 (-1); g1 := of_Z 0; g2 := lit 1 (-3);
     E := lit 1 11; f := lit 1 11; h := lit 1 10 |}.

(** [two_elements] with an entry left in the map at the interior degree of
    freedom 1, as an earlier set-up on another mesh would leave it. *)
Definition stale_map : FEM float :=
  set_boundary_values two_elements {[1%nat := lit 7 0]}.

(** ** Proof tools *)

Lemma bind_Ok {A B} (a : A) (k : A -> result B) : (Ok a ≫= k) = k a.
Proof. reflexivity. Qed.

Lemma bind_Fail {A B} (e : failure) (k : A -> result B) :
  (Fail e ≫= k) = Fail e.
Proof. reflexivity. Qed.

(** Decide the closed tests on naturals that guard the branches. *)
Ltac decide_tests :=
  repeat match goal with
    | |- context [bool_decide ?P] =>
        first [ rewrite (bool_decide_eq_true_2 P) by lia
              | rewrite (bool_decide_eq_false_2 P) by lia ]
    end.

(** Evaluate the integers that literals and converted constants leave under
    [IZR]. *)
Ltac is_nat_literal n :=
  lazymatch n with
  | O => idtac
  | S ?m => is_nat_literal m
  end.

Ltac eval_IZR :=
  repeat match goal with
    | |- context [IZR (?m * 10 ^ ?e)%Z] =>
        let z := eval vm_compute in (m * 10 ^ e)%Z in
        change (IZR (m * 10 ^ e)%Z) with (IZR z)
    | |- context [IZR (10 ^ ?e)%Z] =>
        let z := eval vm_compute in (10 ^ e)%Z in
        change (IZR (10 ^ e)%Z) with (IZR z)
    | |- context [IZR (Z.of_nat ?n)] =>
        is_nat_literal n;
        let z := eval vm_compute in (Z.of_nat n) in
        change (IZR (Z.of_nat n)) with (IZR z)
    end.

(** Expose the real-number operations behind the [Double] interface. *)
Ltac unfold_R :=
  cbv [of_nat of_Z lit dadd dsub dmul ddiv dopp dsqrt deqb R_double];
  cbn [Z.leb Z.compare Z.opp Pos.compare Pos.compare_cont];
  eval_IZR.

(** Unfold [basisValue] at a concrete order and node into its factors. *)
Ltac eval_basisValue :=
  unfold basisValue;
  repeat match goal with
    | |- context [filter ?P (seq 0 ?n)] =>
        let l := eval vm_compute in (filter P (seq 0 n)) in
        change (filter P (seq 0 n)) with l
    end;
  cbn [foldl referenceCoordinate]; unfold_R.

(** Run [basis_gradient] at a concrete order and node. *)
Ltac eval_basis_gradient Horder :=
  unfold basis_gradient, xi_at_node; rewrite Horder; decide_tests;
  cbn [mbind result_bind bind]; unfold_R.

(** Discharge the well-formedness of a concrete element and table. *)
Ltac concrete_wf :=
  lazymatch goal with
  | |- cell_wf _ _ => split; [reflexivity | repeat constructor]
  | |- quadrature_wf _ => split; vm_compute; lia
  | |- Forall _ _ => repeat constructor
  | |- _ => vm_compute; lia
  end.

(** *** Loops *)

(** A loop whose body cannot fail is a left fold over its range. *)
Lemma for_loop_foldl {St} (g : nat -> St -> St) body lo n (s : St) :
  (forall i s, (lo ≤ i < lo + n)%nat -> body i s = Ok (g i s)) ->
  for_loop lo n body s = Ok (foldl (fun s i => g i s) s (seq lo n)).
Proof.
  revert lo s. induction n as [|n IH]; intros lo s Hbody; [reflexivity|].
  cbn [for_loop seq foldl]. rewrite Hbody by lia. rewrite bind_Ok.
  apply IH. intros i s' Hi. apply Hbody. lia.
Qed.

(** The same when the body is known only on the states the loop reaches,
    described by an invariant. *)
Lemma for_loop_foldl_inv {St} (I : nat -> St -> Prop) (g : nat -> St -> St)
  body lo n (s : St) :
  I lo s ->
  (forall i s, (lo ≤ i < lo + n)%nat -> I i s ->
               body i s = Ok (g i s) ∧ I (S i) (g i s)) ->
  for_loop lo n body s = Ok (foldl (fun s i => g i s) s (seq lo n))
  ∧ I (lo + n)%nat (foldl (fun s i => g i s) s (seq lo n)).
Proof.
  revert lo s. induction n as [|n IH]; intros lo s Hs Hbody.
  { cbn. rewrite Nat.add_0_r. auto. }
  cbn [for_loop seq foldl].
  destruct (Hbody lo s ltac:(lia) Hs) as [-> HI]. rewrite bind_Ok.
  replace (lo + S n)%nat with (S lo + n)%nat by lia.
  apply IH; [exact HI|]. intros i s' Hi. apply Hbody. lia.
Qed.

(** A loop fails as soon as its body does. *)
Lemma for_loop_fail_first {St} body lo n (s : St) e :
  body lo s = Fail e -> for_loop lo (S n) body s = Fail e.
Proof. intros Hb. cbn [for_loop]. rewrite Hb. reflexivity. Qed.

(** A loop that works on one slot of a container is the loop on that slot,
    stored back. *)
Lemma for_loop_at_slot {X} (slot : nat -> X -> result X)
  (body : nat -> list X -> result (list X)) (A lo n : nat) (m : list X) (x : X) :
  m !! A = Some x ->
  (forall i m' x', (lo ≤ i < lo + n)%nat -> length m' = length m ->
     m' !! A = Some x' ->
     body i m' = (x'' ← slot i x'; Ok (<[A := x'']> m'))) ->
  for_loop lo n body m = (x'' ← for_loop lo n slot x; Ok (<[A := x'']> m)).
Proof.
  revert lo m x. induction n as [|n IH]; intros lo m x Hx Hbody.
  { cbn. rewrite list_insert_id by exact Hx. reflexivity. }
  cbn [for_loop]. rewrite (Hbody lo m x) by (lia || assumption).
  destruct (slot lo x) as [x1|e]; [|reflexivity]. cbn.
  assert (HA : (A < length m)%nat) by (eapply lookup_lt_Some; eassumption).
  rewrite (IH (S lo) (<[A := x1]> m) x1).
  - destruct (for_loop (S lo) n slot x1) as [x2|e]; [|reflexivity]. cbn.
    rewrite list_insert_insert_eq. reflexivity.
  - apply list_lookup_insert_eq. exact HA.
  - intros i m' x' Hi Hlen Hx'. apply Hbody; [lia| |exact Hx'].
    rewrite Hlen. apply length_insert.
Qed.

(** A loop whose turn [A] computes slot [A] from what it holds fills the
    container slot by slot. *)
Lemma for_loop_fill {X} (slot : nat -> X -> result X) (c : nat -> X)
  (body : nat -> list X -> result (list X)) (n : nat) (m : list X) :
  length m = n ->
  (forall A x, m !! A = Some x -> slot A x = Ok (c A)) ->
  (forall A m' x, (A < n)%nat -> length m' = n -> m' !! A = Some x ->
     body A m' = (x' ← slot A x; Ok (<[A := x']> m'))) ->
  for_loop 0 n body m = Ok (map c (seq 0 n)).
Proof.
  intros Hlen Hslot Hbody.
  assert (Hgen : forall j k, (k + j = n)%nat ->
    for_loop k j body (map c (seq 0 k) ++ drop k m) = Ok (map c (seq 0 n))).
  { induction j as [|j IH]; intros k Hk.
    - cbn. rewrite drop_ge by lia. rewrite app_nil_r.
      replace k with n by lia. reflexivity.
    - cbn [for_loop].
      destruct (lookup_lt_is_Some_2 m k ltac:(lia)) as [x Hx].
      assert (Hlk : (map c (seq 0 k) ++ drop k m) !! k = Some x).
      { rewrite lookup_app_r by (rewrite length_map, length_seq; lia).
        rewrite length_map, length_seq, Nat.sub_diag, lookup_drop.
        rewrite Nat.add_0_r. exact Hx. }
      rewrite (Hbody k _ x) by
        (try exact Hlk; try lia;
         rewrite length_app, length_map, length_seq, length_drop; lia).
      rewrite (Hslot k x Hx). cbn.
      replace (<[k := c k]> (map c (seq 0 k) ++ drop k m))
        with (map c (seq 0 (S k)) ++ drop (S k) m); [apply IH; lia|].
      rewrite insert_app_r_alt by (rewrite length_map, length_seq; lia).
      rewrite length_map, length_seq, Nat.sub_diag.
      rewrite (drop_S m x k Hx). cbn [insert list_insert].
      rewrite seq_S, map_app, <- app_assoc. reflexivity. }
  specialize (Hgen n 0%nat ltac:(lia)). cbn in Hgen. rewrite drop_0 in Hgen.
  exact Hgen.
Qed.

Lemma foldl_filter_if {A B} (P : B -> Prop) `{!∀ x, Decision (P x)}
  (g : A -> B -> A) (a : A) (l : list B) :
  foldl (fun a x => if bool_decide (P x) then g a x else a) a l
  = foldl g a (filter P l).
Proof.
  revert a. induction l as [|x l IH]; intros a; [reflexivity|].
  cbn [foldl]. rewrite filter_cons. case_bool_decide as HP.
  - rewrite decide_True by exact HP. cbn [foldl]. apply IH.
  - rewrite decide_False by exact HP. apply IH.
Qed.

Lemma foldl_pair {A B C} (fa : A -> C -> A) (fb : B -> C -> B)
  (a : A) (b : B) (l : list C) :
  foldl (fun ab i => (fa ab.1 i, fb ab.2 i)) (a, b) l
  = (foldl fa a l, foldl fb b l).
Proof.
  revert a b. induction l as [|i l IH]; intros a b; [reflexivity|].
  cbn [foldl]. apply IH.
Qed.

Lemma at_index_Ok {A} (v : list A) i x : v !! i = Some x -> at_index v i = Ok x.
Proof. unfold at_index. intros ->. reflexivity. Qed.

Lemma at_index_lt {A} (v : list A) i :
  (i < length v)%nat -> exists x, v !! i = Some x ∧ at_index v i = Ok x.
Proof.
  intros Hi. destruct (lookup_lt_is_Some_2 v i Hi) as [x Hx].
  exists x. split; [exact Hx | apply at_index_Ok, Hx].
Qed.

Lemma lookup_map_seq {X} (c : nat -> X) (n i : nat) :
  (i < n)%nat -> map c (seq 0 n) !! i = Some (c i).
Proof.
  intros Hi. change (map c (seq 0 n)) with (c <$> seq 0 n).
  rewrite list_lookup_fmap, lookup_seq_lt by exact Hi. reflexivity.
Qed.

(** *** Real numbers *)

Lemma of_nat_INR (n : nat) : of_nat (T:=R) n = INR n.
Proof. unfold of_nat. cbn. symmetry. apply INR_IZR_INZ. Qed.

Lemma Reqb_reflect (x y : R) : reflect (x = y) (Reqb x y).
Proof. unfold Reqb. destruct (Req_dec_T x y); constructor; assumption. Qed.

(** The derivative of a product extended by one Lagrange factor. *)
Lemma derivable_pt_lim_factor (p : R -> R) (p' a c x : R) :
  derivable_pt_lim p x p' ->
  derivable_pt_lim (fun x => p x * ((x - a) / c))%R x
    (p' * ((x - a) / c) + p x * / c)%R.
Proof.
  intros Hp.
  assert (Hf : derivable_pt_lim (fun x => (x - a) / c)%R x (/ c)%R).
  { replace (/ c)%R with ((1 - 0) * / c + (x - a) * 0)%R by ring.
    apply (derivable_pt_lim_mult (fun x => x - a)%R (fun _ => / c)%R).
    - apply (derivable_pt_lim_minus id (fun _ => a)).
      + apply derivable_pt_lim_id.
      + apply derivable_pt_lim_const.
    - apply derivable_pt_lim_const. }
  apply (derivable_pt_lim_mult p (fun x => (x - a) / c)%R x p' (/ c)%R Hp Hf).
Qed.

Lemma derivable_pt_lim_eq (p : R -> R) (x l l' : R) :
  derivable_pt_lim p x l -> l = l' -> derivable_pt_lim p x l'.
Proof. intros Hp <-. exact Hp. Qed.

(** Differentiate a product of Lagrange factors that starts from 1; what is
    left is that the derivative found is the value claimed. *)
Ltac derive_factors :=
  eapply derivable_pt_lim_eq;
  [ repeat (apply derivable_pt_lim_factor); apply derivable_pt_lim_const
  | cbv beta ].

(** ** The reference basis evaluator *)

Section Evaluator.
Context {T : Type} `{Double T}.
Local Open Scope double_scope.
Implicit Types (st : FEM T) (xi : T).

Lemma xi_at_node_ok st i :
  (i ≤ basisFunctionOrder st)%nat ∨ (i ≤ 1)%nat ->
  xi_at_node st i = Ok (referenceCoordinate (basisFunctionOrder st) i).
Proof.
  intros Hi. unfold xi_at_node, referenceCoordinate.
  destruct i as [|[|i]]; [reflexivity..|].
  decide_tests. reflexivity.
Qed.

Lemma xi_at_node_exit st i :
  (2 ≤ i)%nat -> (basisFunctionOrder st < i)%nat ->
  xi_at_node st i = Fail (ExitNodeNumber i (basisFunctionOrder st + 1)).
Proof. intros H2 Hi. unfold xi_at_node. decide_tests. reflexivity. Qed.

Lemma basis_function_ok st node xi :
  (node ≤ basisFunctionOrder st)%nat ∨ (node ≤ 1)%nat ->
  basis_function st node xi = Ok (basisValue (basisFunctionOrder st) node xi).
Proof.
  intros Hnode. unfold basis_function, basisValue.
  rewrite <- (foldl_filter_if (fun i => i ≠ node)).
  apply (for_loop_foldl
           (fun i value =>
              if bool_decide (i ≠ node) then
                value * ((xi - referenceCoordinate (basisFunctionOrder st) i)
                         / (referenceCoordinate (basisFunctionOrder st) node
                            - referenceCoordinate (basisFunctionOrder st) i))
              else value)).
  intros i value Hi. case_bool_decide; [|reflexivity].
  rewrite (xi_at_node_ok st i) by lia.
  rewrite (xi_at_node_ok st node) by exact Hnode.
  reflexivity.
Qed.

Lemma basis_function_exit st node xi :
  (2 ≤ node)%nat -> (basisFunctionOrder st < node)%nat ->
  basis_function st node xi
  = Fail (ExitNodeNumber node (basisFunctionOrder st + 1)).
Proof.
  intros H2 Hnode. unfold basis_function. apply for_loop_fail_first.
  decide_tests. rewrite (xi_at_node_ok st 0) by lia.
  rewrite xi_at_node_exit by lia. reflexivity.
Qed.

(** C10. With an order outside {1, 2, 3} none of the three blocks of
    [basis_gradient] runs: it returns the [0.0] that [value] starts from,
    for every node and every [xi], and signals nothing. *)
Theorem basis_gradient_unsupported_order st node xi :
  basisFunctionOrder st ≠ 1%nat ->
  basisFunctionOrder st ≠ 2%nat ->
  basisFunctionOrder st ≠ 3%nat ->
  basis_gradient st node xi = Ok (lit 0 0).
Proof.
  intros H1 H2 H3. unfold basis_gradient. decide_tests. reflexivity.
Qed.

(** For the supported orders [basis_gradient] returns a value at every
    local node of the element. *)
Lemma basis_gradient_ok st node xi :
  (node ≤ basisFunctionOrder st)%nat ->
  exists g, basis_gradient st node xi = Ok g.
Proof.
  intros Hnode.
  destruct (decide (basisFunctionOrder st = 1%nat)) as [Ho|H1];
    [|destruct (decide (basisFunctionOrder st = 2%nat)) as [Ho|H2];
      [|destruct (decide (basisFunctionOrder st = 3%nat)) as [Ho|H3]]].
  - unfold basis_gradient, xi_at_node. rewrite Ho in *.
    destruct node as [|[|node]]; try lia; decide_tests; eexists; reflexivity.
  - unfold basis_gradient, xi_at_node. rewrite Ho in *.
    destruct node as [|[|[|node]]]; try lia; decide_tests;
      eexists; reflexivity.
  - unfold basis_gradient, xi_at_node. rewrite Ho in *.
    destruct node as [|[|[|[|node]]]]; try lia; decide_tests;
      eexists; reflexivity.
  - eexists. unfold basis_gradient. decide_tests. reflexivity.
Qed.

Lemma basis_gradient_value st node xi :
  (node ≤ basisFunctionOrder st)%nat ->
  basis_gradient st node xi = Ok (basisGradient st node xi).
Proof.
  intros Hnode. unfold basisGradient.
  destruct (basis_gradient_ok st node xi Hnode) as [g ->]. reflexivity.
Qed.

(** With order 1 a node other than 0 and 1 trips the assertion; with
    order 2 or 3 a node past the order is refused by [xi_at_node]. *)
Lemma basis_gradient_bad_node st node xi :
  (1 ≤ basisFunctionOrder st ≤ 3)%nat -> (basisFunctionOrder st < node)%nat ->
  basis_gradient st node xi
  = Fail (if bool_decide (basisFunctionOrder st = 1%nat) then AssertFailed
          else ExitNodeNumber node (basisFunctionOrder st + 1)).
Proof.
  intros Ho Hnode. unfold basis_gradient.
  assert (basisFunctionOrder st = 1 ∨ basisFunctionOrder st = 2
          ∨ basisFunctionOrder st = 3)%nat as [Ho' | [Ho' | Ho']] by lia.
  - rewrite Ho' in *. decide_tests. reflexivity.
  - rewrite (xi_at_node_exit st node) by lia. rewrite Ho' in *.
    decide_tests. reflexivity.
  - rewrite (xi_at_node_exit st node) by lia. rewrite Ho' in *.
    decide_tests. reflexivity.
Qed.

(** C7, as the code has it.  The constructor refuses every problem number
    other than 1 and 2, with its message and [exit], and builds no object;
    and for every order of at least 1, [xi_at_node] and [basis_function]
    refuse every local node past the order, with the message on the node
    number and [exit], whatever computation was under way.  The order itself
    is not examined. *)
Theorem configuration_errors :
  (forall order problem : nat,
     problem ≠ 1%nat -> problem ≠ 2%nat ->
     FEM_new (T:=T) order problem = Fail ExitProblemNumber)
  ∧ (forall st node xi,
       (1 ≤ basisFunctionOrder st)%nat -> (basisFunctionOrder st < node)%nat ->
       xi_at_node st node
       = Fail (ExitNodeNumber node (basisFunctionOrder st + 1))
       ∧ basis_function st node xi
         = Fail (ExitNodeNumber node (basisFunctionOrder st + 1))
       ∧ forall A (k : T -> result A),
           (basis_function st node xi ≫= k)
           = Fail (ExitNodeNumber node (basisFunctionOrder st + 1))).
Proof.
  split.
  - intros order problem H1 H2. unfold FEM_new. decide_tests. reflexivity.
  - intros st node xi Ho Hnode.
    assert (Hb := basis_function_exit st node xi ltac:(lia) ltac:(lia)).
    split; [apply xi_at_node_exit; lia|]. split; [exact Hb|].
    intros A k. rewrite Hb. reflexivity.
Qed.

End Evaluator.

Lemma basis_gradient_unsupported_order_witness :
  basis_gradient (order_state 4) 2 (1 / 2)%R = Ok 0%R.
Proof.
  change (basis_gradient (order_state 4) 2 (1 / 2)%R = Ok (lit 0 0)).
  apply (basis_gradient_unsupported_order (order_state 4) 2 (1 / 2)%R);
    cbn; lia.
Defined.

Lemma configuration_errors_witness :
  FEM_new (T:=R) 2 3 = Fail ExitProblemNumber
  ∧ xi_at_node (order_state 2) 3 = Fail (ExitNodeNumber 3 3)
  ∧ basis_function (order_state 2) 3 0%R = Fail (ExitNodeNumber 3 3).
Proof.
  destruct (configuration_errors (T:=R)) as [Hctor Hnode].
  split; [apply (Hctor 2 3)%nat; lia|].
  destruct (Hnode (order_state 2) 3%nat 0%R) as (Hxi & Hb & _);
    [cbn; lia | cbn; lia |].
  split; [exact Hxi | exact Hb].
Defined.

(** C7 as stated fails: an order outside 1-3 is accepted.  With order 4 and
    problem 1 the constructor returns an object; [xi_at_node] and
    [basis_function] serve all five nodes, [basis_gradient] returns zero,
    and set-up and assembly of a one-element mesh run to their end, leaving
    a stiffness matrix of zeros and a load vector that is not zero. *)
Lemma order_4_is_accepted :
  exists st st',
    FEM_new (T:=float) 4 1 = Ok st
    ∧ xi_at_node st 4 = Ok 0.5%float
    ∧ basis_function st 4 0.5%float = Ok 1%float
    ∧ basis_gradient st 4 0.5%float = Ok 0%float
    ∧ (setup_system quartic_mesh (generate_mesh 1 st)
       ≫= assemble_system (fun _ k d fv => (k, d, fv))) = Ok st'
    ∧ map (fun ij => K_entry (K st') ij.1 ij.2)
        (list_prod (seq 0 5) (seq 0 5)) = replicate 25 0%float
    ∧ F st' !! 4%nat = Some 0x1.5d867c3ece2a8p-9%float.
Proof.
  eexists _, _. split; [reflexivity|].
  split; [vm_compute; reflexivity|].
  split; [vm_compute; reflexivity|].
  split; [vm_compute; reflexivity|].
  split; [vm_compute; reflexivity|].
  split; vm_compute; reflexivity.
Qed.

(** *** Over the reals *)

Section RealBasis.
Local Open Scope R_scope.
Implicit Types (st : FEM R) (xi : R).

(** The orders the evaluator supports, and the local nodes of an element. *)
Lemma supported_order_cases (order : nat) :
  (1 ≤ order ≤ 3)%nat -> order = 1%nat ∨ order = 2%nat ∨ order = 3%nat.
Proof. lia. Qed.

(** The basis function of [node] is 1 at its own node and 0 at the others. *)
Lemma basisValue_nodal (order i j : nat) :
  (1 ≤ order ≤ 3)%nat -> (i ≤ order)%nat -> (j ≤ order)%nat ->
  basisValue order i (referenceCoordinate order j)
  = if bool_decide (i = j) then 1 else 0.
Proof.
  intros Ho Hi Hj.
  destruct (supported_order_cases order Ho) as [-> | [-> | ->]].
  - destruct i as [|[|i]], j as [|[|j]]; try lia;
      decide_tests; eval_basisValue; field; lra.
  - destruct i as [|[|[|i]]], j as [|[|[|j]]]; try lia;
      decide_tests; eval_basisValue; field; lra.
  - destruct i as [|[|[|[|i]]]], j as [|[|[|[|j]]]]; try lia;
      decide_tests; eval_basisValue; field; lra.
Qed.

(** The basis functions of an element sum to 1 at every point. *)
Lemma basisValue_partition_of_unity (order : nat) xi :
  (1 ≤ order ≤ 3)%nat ->
  dsum (T:=R) 0 (fun node => basisValue order node xi) 0 (S order) = 1.
Proof.
  intros Ho.
  destruct (supported_order_cases order Ho) as [-> | [-> | ->]];
    unfold dsum; cbn [seq foldl]; eval_basisValue; field; lra.
Qed.

(** [basis_gradient] returns the derivative of [basisValue]. *)
Lemma basis_gradient_derivative st node xi :
  (1 ≤ basisFunctionOrder st ≤ 3)%nat -> (node ≤ basisFunctionOrder st)%nat ->
  exists g, basis_gradient st node xi = Ok g
            ∧ derivable_pt_lim (basisValue (basisFunctionOrder st) node) xi g.
Proof.
  intros Ho Hnode.
  destruct (supported_order_cases _ Ho) as [Ho' | [Ho' | Ho']]; rewrite Ho' in *.
  - destruct node as [|[|node]]; try lia.
    all: eexists; split; [eval_basis_gradient Ho'; reflexivity|].
    all: eval_basisValue; derive_factors; field; lra.
  - destruct node as [|[|[|node]]]; try lia.
    all: eexists; split; [eval_basis_gradient Ho'; reflexivity|].
    all: eval_basisValue; derive_factors; field; lra.
  - destruct node as [|[|[|[|node]]]]; try lia.
    all: eexists; split; [eval_basis_gradient Ho'; reflexivity|].
    all: eval_basisValue; derive_factors; field; lra.
Qed.

(** C1. For every order in {1, 2, 3}: at the reference coordinate of local
    node [j], [basis_function i] returns 1 when [i = j] and 0 otherwise
    (nodal interpolation); and at every [xi] of the reference interval
    [-1, 1] the values [basis_function] returns for the nodes [0 .. order]
    sum to 1 (partition of unity). *)
Theorem basis_function_nodal_and_partition_of_unity st :
  (1 ≤ basisFunctionOrder st ≤ 3)%nat ->
  (forall i j : nat,
     (i ≤ basisFunctionOrder st)%nat -> (j ≤ basisFunctionOrder st)%nat ->
     exists xi_j,
       xi_at_node st j = Ok xi_j
       ∧ basis_function st i xi_j = Ok (if bool_decide (i = j) then 1 else 0))
  ∧ (forall xi, -1 <= xi <= 1 ->
     exists N : nat -> R,
       (forall node, (node ≤ basisFunctionOrder st)%nat ->
                     basis_function st node xi = Ok (N node))
       ∧ dsum (T:=R) 0 N 0 (S (basisFunctionOrder st)) = 1).
Proof.
  intros Ho. split.
  - intros i j Hi Hj. exists (referenceCoordinate (basisFunctionOrder st) j).
    split; [apply xi_at_node_ok; lia|].
    rewrite basis_function_ok by lia. f_equal.
    apply basisValue_nodal; assumption.
  - intros xi _. exists (fun node => basisValue (basisFunctionOrder st) node xi).
    split.
    + intros node Hnode. apply basis_function_ok. lia.
    + apply basisValue_partition_of_unity, Ho.
Qed.

(** C2. For every order in {1, 2, 3}, every local node [node <= order] and
    every [xi]: [basis_function node] computes the Lagrange product
    [basisValue order node] at every point, and [basis_gradient node xi]
    returns the derivative of that polynomial at [xi]. *)
Theorem basis_gradient_is_derivative st node xi :
  (1 ≤ basisFunctionOrder st ≤ 3)%nat -> (node ≤ basisFunctionOrder st)%nat ->
  (forall x, basis_function st node x
             = Ok (basisValue (basisFunctionOrder st) node x))
  ∧ exists g, basis_gradient st node xi = Ok g
              ∧ derivable_pt_lim (basisValue (basisFunctionOrder st) node) xi g.
Proof.
  intros Ho Hnode. split.
  - intros x. apply basis_function_ok. lia.
  - apply basis_gradient_derivative; assumption.
Qed.

(** C8. For every order in {1, 2, 3}, [xi_at_node] returns -1 for local
    node 0, +1 for local node 1 and [-1 + 2 (node - 1) / order] for
    [2 <= node <= order], and it fails, with the message on the node number
    and [exit], for every [node > order]. *)
Theorem xi_at_node_values st :
  (1 ≤ basisFunctionOrder st ≤ 3)%nat ->
  xi_at_node st 0 = Ok (-1)
  ∧ xi_at_node st 1 = Ok 1
  ∧ (forall node, (2 ≤ node ≤ basisFunctionOrder st)%nat ->
       xi_at_node st node
       = Ok (-1 + 2 * (INR node - 1) / INR (basisFunctionOrder st)))
  ∧ (forall node, (basisFunctionOrder st < node)%nat ->
       xi_at_node st node
       = Fail (ExitNodeNumber node (basisFunctionOrder st + 1))).
Proof.
  intros Ho. split; [|split; [|split]].
  - unfold xi_at_node. decide_tests. unfold_R. reflexivity.
  - unfold xi_at_node. decide_tests. unfold_R. reflexivity.
  - intros node Hnode. unfold xi_at_node. decide_tests.
    rewrite !of_nat_INR. unfold_R. reflexivity.
  - intros node Hnode. apply xi_at_node_exit; lia.
Qed.

End RealBasis.

Lemma basis_function_nodal_and_partition_of_unity_witness :
  (forall i j : nat, (i ≤ 3)%nat -> (j ≤ 3)%nat ->
     exists xi_j,
       xi_at_node (order_state 3) j = Ok xi_j
       ∧ basis_function (order_state 3) i xi_j
         = Ok (if bool_decide (i = j) then 1%R else 0%R))
  ∧ (forall xi, (-1 <= xi <= 1)%R ->
     exists N : nat -> R,
       (forall node, (node ≤ 3)%nat ->
                     basis_function (order_state 3) node xi = Ok (N node))
       ∧ dsum (T:=R) 0%R N 0 4 = 1%R).
Proof.
  apply (basis_function_nodal_and_partition_of_unity (order_state 3)).
  cbn. lia.
Defined.

Lemma basis_gradient_is_derivative_witness :
  (forall x, basis_function (order_state 2) 2 x = Ok (basisValue 2 2 x))
  ∧ exists g, basis_gradient (order_state 2) 2 (1 / 2)%R = Ok g
              ∧ derivable_pt_lim (basisValue 2 2) (1 / 2)%R g.
Proof.
  apply (basis_gradient_is_derivative (order_state 2) 2 (1 / 2)%R); cbn; lia.
Defined.

Lemma xi_at_node_values_witness :
  xi_at_node (order_state 3) 0 = Ok (-1)%R
  ∧ xi_at_node (order_state 3) 1 = Ok 1%R
  ∧ (forall node, (2 ≤ node ≤ 3)%nat ->
       xi_at_node (order_state 3) node
       = Ok (-1 + 2 * (INR node - 1) / INR 3)%R)
  ∧ (forall node, (3 < node)%nat ->
       xi_at_node (order_state 3) node = Fail (ExitNodeNumber node (3 + 1))).
Proof. apply (xi_at_node_values (order_state 3)). cbn. lia. Defined.

(** *** In binary64 *)

(** The decimal literals of the source as binary64 numbers. *)
Example binary64_literals :
  gauss_points (T:=float)
  = [-0x1.8c97ef43f7248p-1; 0; 0x1.8c97ef43f7248p-1]%float
  ∧ gauss_weights (T:=float)
    = [0x1.1c71c71c71c73p-1; 0x1.c71c71c71c71cp-1;
       0x1.1c71c71c71c73p-1]%float
  ∧ (lit 1 (-1), lit 1 (-3), lit 1 11, lit 1 10, lit 5 (-1))
    = (0x1.999999999999ap-4, 0x1.0624dd2f1a9fcp-10, 0x1.74876e8p+36,
       0x1.2a05f2p+33, 0x1p-1)%float.
Proof. repeat split; vm_compute; reflexivity. Qed.

(** Nodal interpolation holds bit for bit in binary64: each basis function
    is exactly 1 at its node and a (signed) zero at the others. *)
Example nodal_table_binary64_order1 :
  nodal_table (T:=float) 1
  = [[Ok 1; Ok (-0)]; [Ok 0; Ok 1]]%float.
Proof. vm_compute. reflexivity. Qed.

Example nodal_table_binary64_order2 :
  nodal_table (T:=float) 2
  = [[Ok 1; Ok 0; Ok (-0)];
     [Ok (-0); Ok 1; Ok 0];
     [Ok 0; Ok (-0); Ok 1]]%float.
Proof. vm_compute. reflexivity. Qed.

Example nodal_table_binary64_order3 :
  nodal_table (T:=float) 3
  = [[Ok 1; Ok (-0); Ok (-0); Ok 0];
     [Ok 0; Ok 1; Ok (-0); Ok 0];
     [Ok 0; Ok 0; Ok 1; Ok (-0)];
     [Ok (-0); Ok (-0); Ok 0; Ok 1]]%float.
Proof. vm_compute. reflexivity. Qed.

(** The partition of unity is an identity of real arithmetic; in binary64
    the sum is 1 up to rounding: at [xi = 0.3] the three quadratic basis
    functions add up to the binary64 number just below 1. *)
Example basis_sum_binary64_rounds :
  basis_sum (T:=float) 2 (lit 3 (-1)) = Ok 0x1.fffffffffffffp-1%float
  ∧ basis_sum (T:=float) 2 (lit 5 (-1)) = Ok 1%float.
Proof. split; vm_compute; reflexivity. Qed.

(** The reference coordinates in binary64. *)
Example xi_at_node_binary64_order3 :
  (st ← FEM_new (T:=float) 3 1; Ok (map (xi_at_node st) (seq 0 5)))
  = Ok [Ok (-1)%float; Ok 1%float;
        Ok (-0x1.5555555555556p-2)%float; Ok 0x1.5555555555554p-2%float;
        Fail (ExitNodeNumber 4 4)].
Proof. vm_compute. reflexivity. Qed.

(** ** The Dirichlet constraint map *)

Section Dirichlet.
Context {T : Type} `{Double T}.
Local Open Scope double_scope.
Implicit Types (st : FEM T) (bv : gmap nat T).

Lemma boundary_body_step st globalNode bv :
  (globalNode < length (nodeLocation st))%nat ->
  (x ← at_index (nodeLocation st) globalNode;
   let bv := if x == of_Z 0 then <[globalNode := g1 st]> bv else bv in
   x ← at_index (nodeLocation st) globalNode;
   Ok (if x == L st then
         if bool_decide (prob st = 1%nat) then <[globalNode := g2 st]> bv
         else bv
       else bv))
  = Ok (boundary_step st globalNode bv).
Proof.
  intros Hlt. destruct (at_index_lt _ _ Hlt) as (x & Hx & ->).
  unfold boundary_step, dirichlet_value. rewrite Hx. cbn.
  destruct (x == L st), (bool_decide (prob st = 1%nat)), (x == of_Z 0);
    cbn; try reflexivity.
  rewrite insert_insert_eq. reflexivity.
Qed.

Lemma boundary_steps_lookup st bv (n k : nat) :
  foldl (fun bv i => boundary_step st i bv) bv (seq 0 n) !! k
  = if bool_decide (k < n)%nat then
      match nodeLocation st !! k ≫= dirichlet_value st with
      | Some v => Some v
      | None => bv !! k
      end
    else bv !! k.
Proof.
  induction n as [|n IH]; [reflexivity|].
  rewrite seq_S, foldl_app. cbn [foldl Nat.add].
  unfold boundary_step at 1.
  destruct (decide (k = n)) as [->|Hkn].
  - rewrite (bool_decide_eq_true_2 (n < S n)%nat) by lia.
    rewrite (bool_decide_eq_false_2 (n < n)%nat) in IH by lia.
    destruct (nodeLocation st !! n) as [x|]; cbn; [|exact IH].
    destruct (dirichlet_value st x); [apply lookup_insert_eq | exact IH].
  - assert (Hstep :
      forall m : gmap nat T,
        match nodeLocation st !! n with
        | Some x => match dirichlet_value st x with
                    | Some v => <[n := v]> m
                    | None => m
                    end
        | None => m
        end !! k = m !! k).
    { intros m. destruct (nodeLocation st !! n) as [x|]; [|reflexivity].
      destruct (dirichlet_value st x); [|reflexivity].
      apply lookup_insert_ne. congruence. }
    rewrite Hstep, IH.
    destruct (decide (k < n)%nat).
    + rewrite !bool_decide_eq_true_2 by lia. reflexivity.
    + rewrite !bool_decide_eq_false_2 by lia. reflexivity.
Qed.

(** [define_boundary_conds] returns, and changes [boundary_values] only. *)
Lemma define_boundary_conds_ok st :
  (n_dofs (dof_handler st) ≤ length (nodeLocation st))%nat ->
  define_boundary_conds st
  = Ok (set_boundary_values st
          (foldl (fun bv i => boundary_step st i bv) (boundary_values st)
             (seq 0 (n_dofs (dof_handler st))))).
Proof.
  intros Hlen. unfold define_boundary_conds.
  rewrite (for_loop_foldl (boundary_step st)); [reflexivity|].
  intros i bv Hi. apply boundary_body_step. lia.
Qed.

(** From the empty map, with a coordinate for every degree of freedom, the
    map that [define_boundary_conds] returns holds at [k] the value
    prescribed at the coordinate of [k]. *)
Lemma define_boundary_conds_lookup st :
  boundary_values st = ∅ ->
  length (nodeLocation st) = n_dofs (dof_handler st) ->
  exists st',
    define_boundary_conds st = Ok st'
    ∧ forall k : nat,
        boundary_values st' !! k
        = nodeLocation st !! k ≫= dirichlet_value st.
Proof.
  intros Hempty Hlen. eexists. split.
  { apply define_boundary_conds_ok. lia. }
  cbn [boundary_values set_boundary_values].
  intros k. rewrite boundary_steps_lookup, Hempty, lookup_empty, <- Hlen.
  case_bool_decide as Hk.
  - destruct (nodeLocation st !! k ≫= dirichlet_value st); reflexivity.
  - rewrite lookup_ge_None_2 by lia. reflexivity.
Qed.

(** C5. [define_boundary_conds], run on the empty map with [nodeLocation]
    holding one coordinate per degree of freedom and the two ends of the
    domain apart, returns with a map that holds exactly: the degrees of
    freedom whose coordinate [==] 0, each with [g1]; and, in problem 1, those
    whose coordinate [== L], each with [g2].  Membership is decided by [==]
    on the coordinate alone, so a degree of freedom whose coordinate is
    neither end is never in the map. *)
Theorem define_boundary_conds_map st :
  boundary_values st = ∅ ->
  length (nodeLocation st) = n_dofs (dof_handler st) ->
  (forall x, x ∈ nodeLocation st ->
             (x == of_Z 0) = true -> (x == L st) = false) ->
  exists st',
    define_boundary_conds st = Ok st'
    ∧ (forall (k : nat) (v : T),
         boundary_values st' !! k = Some v
         <-> exists x,
             nodeLocation st !! k = Some x
             ∧ (((x == of_Z 0) = true ∧ v = g1 st)
                ∨ (prob st = 1%nat ∧ (x == L st) = true ∧ v = g2 st)))
    ∧ (forall (k : nat) (x : T),
         nodeLocation st !! k = Some x ->
         (x == of_Z 0) = false -> (x == L st) = false ->
         boundary_values st' !! k = None).
Proof.
  intros Hempty Hlen Hapart.
  destruct (define_boundary_conds_lookup st Hempty Hlen)
    as (st' & Hrun & Hlook).
  exists st'. split; [exact Hrun|]. split.
  - intros k v. rewrite Hlook. split.
    + intros Hv. destruct (nodeLocation st !! k) as [x|] eqn:Hx;
        [|discriminate]. exists x. split; [reflexivity|].
      cbn in Hv. unfold dirichlet_value in Hv.
      destruct (x == L st) eqn:HL, (bool_decide (prob st = 1%nat)) eqn:Hp,
        (x == of_Z 0) eqn:H0; cbn in Hv; simplify_eq;
        try apply bool_decide_eq_true_1 in Hp; auto.
    + intros (x & Hx & Hv). rewrite Hx. cbn. unfold dirichlet_value.
      destruct Hv as [[H0 ->] | (Hp & HL & ->)].
      * rewrite (Hapart x) by (eauto using list_elem_of_lookup_2).
        rewrite H0. reflexivity.
      * rewrite HL, bool_decide_eq_true_2 by exact Hp. reflexivity.
  - intros k x Hx H0 HL. rewrite Hlook, Hx. cbn. unfold dirichlet_value.
    rewrite H0, HL. reflexivity.
Qed.

(** [setup_system] returns for every mesh, and installs the quadrature
    table. *)
Lemma setup_system_ok (dh : DoFHandler T) st :
  exists st', setup_system dh st = Ok st'
              ∧ quadRule st' = 3%nat
              ∧ quad_points st' = gauss_points
              ∧ quad_weight st' = gauss_weights.
Proof.
  unfold setup_system.
  rewrite define_boundary_conds_ok by (cbn; unfold n_dofs; lia).
  eexists. split; [reflexivity|]. cbn. auto.
Qed.

End Dirichlet.

Lemma define_boundary_conds_map_witness :
  exists st',
    define_boundary_conds two_elements = Ok st'
    ∧ (forall (k : nat) (v : float),
         boundary_values st' !! k = Some v
         <-> exists x,
             nodeLocation two_elements !! k = Some x
             ∧ (((x == of_Z 0)%D = true ∧ v = g1 two_elements)
                ∨ (prob two_elements = 1%nat
                   ∧ (x == L two_elements)%D = true
                   ∧ v = g2 two_elements)))
    ∧ (forall (k : nat) (x : float),
         nodeLocation two_elements !! k = Some x ->
         (x == of_Z 0)%D = false -> (x == L two_elements)%D = false ->
         boundary_values st' !! k = None).
Proof.
  apply (define_boundary_conds_map two_elements).
  - reflexivity.
  - reflexivity.
  - intros x Hx H0.
    apply elem_of_cons in Hx as [-> | Hx]; [vm_compute; reflexivity|].
    apply elem_of_cons in Hx as [-> | Hx]; [vm_compute; reflexivity|].
    apply elem_of_cons in Hx as [-> | Hx];
      [vm_compute in H0; discriminate H0|].
    apply elem_of_nil in Hx. destruct Hx.
Defined.

(** The map the model computes on the three nodes of [two_elements]. *)
Example define_boundary_conds_binary64 :
  (st' ← define_boundary_conds two_elements;
   Ok (map (fun k => boundary_values st' !! k) (seq 0 3)))
  = Ok [Some 0%float; None; Some (lit 1 (-3))].
Proof. vm_compute. reflexivity. Qed.

(** The Dirichlet map of a run over the reals: after the constructor,
    [generate_mesh] and [setup_system], the map holds 0 at the degrees of
    freedom of coordinate 0 and, in problem 1, 0.001 at those of
    coordinate 0.1, and nothing else. *)
Lemma prepare_boundary_values (order problem numberOfElements : nat)
  (dh : DoFHandler R) (st : FEM R) :
  prepare order problem numberOfElements dh = Ok st ->
  forall (k : nat) (v : R),
    boundary_values st !! k = Some v
    <-> exists x : R,
        support_points dh !! k = Some x
        ∧ ((x = 0 ∧ v = 0)
           ∨ (problem = 1%nat ∧ x = 1 / 10 ∧ v = 1 / 1000))%R.
Proof.
  unfold prepare, FEM_new.
  destruct (bool_decide (problem = 1%nat) || bool_decide (problem = 2%nat));
    [|discriminate].
  rewrite bind_Ok. unfold setup_system.
  match goal with
  | |- (define_boundary_conds ?s ≫= _) = _ -> _ => set (st1 := s)
  end.
  destruct (define_boundary_conds_lookup st1 eq_refl eq_refl)
    as (st2 & Hrun & Hlook).
  rewrite Hrun, bind_Ok. intros Hst. injection Hst as <-.
  cbn [boundary_values]. intros k v. rewrite Hlook.
  cbn [nodeLocation st1].
  destruct (support_points dh !! k) as [x|]; cbn [mbind option_bind];
    [|split; [discriminate | intros (x & Hx & _); discriminate]].
  unfold dirichlet_value. cbn [L g1 g2 prob st1 set_L generate_mesh].
  change (deqb x (lit 1 (-1))) with (Reqb x (lit 1 (-1))).
  change (deqb x (of_Z 0)) with (Reqb x 0).
  assert (HL : (lit 1 (-1) : R) = (1 / 10)%R) by (unfold_R; reflexivity).
  assert (Hg : (lit 1 (-3) : R) = (1 / 1000)%R) by (unfold_R; reflexivity).
  rewrite HL, Hg. change (of_Z 0 : R) with 0%R.
  destruct (Reqb_reflect x (1 / 10)) as [HxL | HxL],
    (bool_decide_reflect (problem = 1%nat)) as [Hp | Hp],
    (Reqb_reflect x 0) as [Hx0 | Hx0]; cbn [andb].
  all: split; [intros Hv | intros (y & Hy & Hv); injection Hy as <-].
  all: try discriminate Hv.
  all: try (injection Hv as <-; exists x; split; [reflexivity | auto]).
  all: destruct Hv as [[H0 ->] | (H1 & H2 & ->)];
    first [ reflexivity | contradiction | exfalso; lra ].
Qed.

(** ** The quadrature table *)

(** C9. The three weights that [setup_system] installs sum to 2 up to
    floating-point tolerance: the sum of the decimal literals, taken exactly,
    and the sum of their binary64 values, added in binary64, are both within
    [2^-51] of 2, the spacing of the binary64 numbers at 2. *)
Theorem quad_weight_sum
  (dhR : DoFHandler R) (stR stR' : FEM R)
  (dhF : DoFHandler float) (stF stF' : FEM float) :
  setup_system dhR stR = Ok stR' ->
  setup_system dhF stF = Ok stF' ->
  (Rabs (dsum 0 (entry (quad_weight stR')) 0 (quadRule stR') - 2)
   <= / 2 ^ 51)%R
  ∧ PrimFloat.leb
      (PrimFloat.abs
         (dsum 0 (entry (quad_weight stF')) 0 (quadRule stF') - 2)%float)
      0x1p-51%float = true.
Proof.
  intros HR HF.
  destruct (setup_system_ok dhR stR) as (stR0 & HR0 & HqR & _ & HwR).
  destruct (setup_system_ok dhF stF) as (stF0 & HF0 & HqF & _ & HwF).
  rewrite HR in HR0. injection HR0 as <-.
  rewrite HF in HF0. injection HF0 as <-.
  rewrite HqR, HwR, HqF, HwF. clear.
  split.
  - unfold dsum, entry, gauss_weights.
    cbn [seq foldl lookup list_lookup default from_option].
    unfold Datatypes.id.
    unfold_R.
    replace (0 + 5555555555555557 / 10000000000000000
             + 8888888888888888 / 10000000000000000
             + 5555555555555557 / 10000000000000000 - 2)%R
      with (2 / 10000000000000000)%R by field.
    rewrite Rabs_pos_eq by lra.
    apply (Rmult_le_reg_r (2 ^ 51)); [apply pow_lt; lra|].
    rewrite Rinv_l by (apply pow_nonzero; lra).
    rewrite (pow_IZR 2 51).
    change (2 ^ Z.of_nat 51)%Z with 2251799813685248%Z.
    lra.
  - vm_compute. reflexivity.
Qed.

(** In binary64 the three weights add up to the number next above 2. *)
Example quad_weight_sum_binary64 :
  dsum 0%float (entry gauss_weights) 0 3 = 0x1.0000000000001p+1%float.
Proof. vm_compute. reflexivity. Qed.

Lemma quad_weight_sum_witness :
  exists (stR' : FEM R) (stF' : FEM float),
    setup_system two_elements_R (order_state 1) = Ok stR'
    ∧ setup_system (dof_handler two_elements) two_elements = Ok stF'
    ∧ (Rabs (dsum 0 (entry (quad_weight stR')) 0 (quadRule stR') - 2)
       <= / 2 ^ 51)%R
    ∧ PrimFloat.leb
        (PrimFloat.abs
           (dsum 0 (entry (quad_weight stF')) 0 (quadRule stF') - 2)%float)
        0x1p-51%float = true.
Proof.
  destruct (setup_system_ok two_elements_R (order_state 1))
    as (stR' & HR & _).
  destruct (setup_system_ok (dof_handler two_elements) two_elements)
    as (stF' & HF & _).
  exists stR', stF'. split; [exact HR|]. split; [exact HF|].
  exact (quad_weight_sum _ _ _ _ _ _ HR HF).
Defined.

(** ** The element assembler *)

Section Assembler.
Context {T : Type} `{Double T}.
Local Open Scope double_scope.
Implicit Types (st : FEM T) (xi h_e : T) (local_dof_indices : list nat).

Lemma node_x_ok st local_dof_indices A :
  cell_wf st local_dof_indices -> (A < dofs_per_cell st)%nat ->
  node_x st local_dof_indices A = Ok (nodeCoordinate st local_dof_indices A).
Proof.
  intros [Hlen Hall] HA. unfold node_x, nodeCoordinate, entry.
  destruct (lookup_lt_is_Some_2 local_dof_indices A ltac:(lia)) as [g Hg].
  rewrite (at_index_Ok _ _ _ Hg), Hg. cbn.
  rewrite Forall_lookup in Hall. specialize (Hall A g Hg).
  destruct (at_index_lt _ _ Hall) as (x & Hx & ->). rewrite Hx. reflexivity.
Qed.

Lemma element_length_ok st local_dof_indices :
  cell_wf st local_dof_indices -> (1 ≤ basisFunctionOrder st)%nat ->
  element_length st local_dof_indices
  = Ok (elementLength st local_dof_indices).
Proof.
  intros Hwf Ho. unfold element_length, dofs_per_cell.
  rewrite !node_x_ok by (try assumption; unfold dofs_per_cell; lia).
  reflexivity.
Qed.

Lemma interpolate_x_ok st local_dof_indices xi :
  cell_wf st local_dof_indices ->
  interpolate_x st local_dof_indices xi
  = Ok (physicalCoordinate st local_dof_indices xi).
Proof.
  intros Hwf. unfold interpolate_x, physicalCoordinate, dsum.
  apply (for_loop_foldl
           (fun B x => x + nodeCoordinate st local_dof_indices B
                           * basisValue (basisFunctionOrder st) B xi)).
  intros B x HB. rewrite node_x_ok by (try assumption; lia).
  rewrite basis_function_ok by (unfold dofs_per_cell in HB; lia).
  reflexivity.
Qed.

Lemma quad_point_ok st q :
  quadrature_wf st -> (q < quadRule st)%nat ->
  at_index (quad_points st) q = Ok (entry (quad_points st) q)
  ∧ at_index (quad_weight st) q = Ok (entry (quad_weight st) q).
Proof.
  intros [Hp Hw] Hq. unfold entry. split.
  - destruct (at_index_lt (quad_points st) q ltac:(lia)) as (x & -> & ->).
    reflexivity.
  - destruct (at_index_lt (quad_weight st) q ltac:(lia)) as (x & -> & ->).
    reflexivity.
Qed.

(** The loops of the load vector never fail on a well-formed element; they
    leave in entry [A] the quadrature sum of local node [A]. *)
Lemma load_integrals_ok st local_dof_indices h_e :
  cell_wf st local_dof_indices -> quadrature_wf st ->
  load_integrals st local_dof_indices h_e
  = Ok (map (loadIntegral st local_dof_indices h_e)
          (seq 0 (dofs_per_cell st))).
Proof.
  intros Hwf Hq. unfold load_integrals.
  apply (for_loop_fill
           (fun A y =>
              for_loop 0 (quadRule st)
                (fun q y =>
                   Ok (y + h_e / lit 2 0
                           * basisValue (basisFunctionOrder st) A
                               (entry (quad_points st) q)
                           * entry (quad_weight st) q
                           * (lit 1 0
                              * physicalCoordinate st local_dof_indices
                                  (entry (quad_points st) q))))
                y)).
  - apply length_replicate.
  - intros A x Hx. apply lookup_replicate in Hx as [-> HA].
    rewrite (for_loop_foldl
               (fun q y =>
                  y + h_e / lit 2 0
                      * basisValue (basisFunctionOrder st) A
                          (entry (quad_points st) q)
                      * entry (quad_weight st) q
                      * (lit 1 0
                         * physicalCoordinate st local_dof_indices
                             (entry (quad_points st) q))))
      by reflexivity.
    reflexivity.
  - intros A Flocal x HA Hlen Hx.
    apply (for_loop_at_slot _ _ A 0 (quadRule st) Flocal x Hx).
    intros q Fl' y Hqr Hlen' Hy.
    destruct (quad_point_ok st q Hq ltac:(lia)) as [-> ->].
    rewrite !bind_Ok, interpolate_x_ok by assumption.
    rewrite !bind_Ok, basis_function_ok by (unfold dofs_per_cell in HA; lia).
    rewrite !bind_Ok. unfold add_at. rewrite (at_index_Ok _ _ _ Hy).
    reflexivity.
Qed.

Lemma neumann_condition_ok st local_dof_indices (Flocal : list T) :
  cell_wf st local_dof_indices -> (1 ≤ basisFunctionOrder st)%nat ->
  length Flocal = dofs_per_cell st ->
  neumann_condition st local_dof_indices Flocal
  = Ok (fluxLoad st local_dof_indices Flocal).
Proof.
  intros Hwf Ho Hlen. unfold neumann_condition, fluxLoad.
  case_bool_decide; [|reflexivity]. cbn.
  rewrite node_x_ok by (try assumption; unfold dofs_per_cell; lia).
  rewrite bind_Ok.
  destruct (nodeCoordinate st local_dof_indices 1 == L st); [|reflexivity].
  unfold add_at, entry.
  destruct (at_index_lt Flocal 1) as (y & -> & ->);
    [unfold dofs_per_cell in Hlen; lia|].
  reflexivity.
Qed.

(** The loops of the local stiffness matrix never fail; they leave in entry
    [(A, B)] the quadrature sum of the pair. *)
Lemma stiffness_integrals_ok st h_e :
  quadrature_wf st ->
  stiffness_integrals st h_e = Ok (stiffnessMatrix st h_e).
Proof.
  intros Hq. unfold stiffness_integrals, stiffnessMatrix.
  set (t := fun A B q =>
         lit 2 0 / h_e
         * basisGradient st A (entry (quad_points st) q)
         * basisGradient st B (entry (quad_points st) q)
         * entry (quad_weight st) q).
  set (row_loop := fun A (row : list T) =>
         for_loop 0 (dofs_per_cell st)
           (fun B row =>
              for_loop 0 (quadRule st) (fun q row => add_at row B (t A B q))
                row)
           row).
  apply (for_loop_fill row_loop).
  - apply length_replicate.
  - intros A row Hrow. apply lookup_replicate in Hrow as [-> HA].
    unfold row_loop.
    apply (for_loop_fill
             (fun B y =>
                for_loop 0 (quadRule st) (fun q y => Ok (y + t A B q)) y)).
    + apply length_replicate.
    + intros B y Hy. apply lookup_replicate in Hy as [-> HB].
      rewrite (for_loop_foldl (fun q y => y + t A B q)) by reflexivity.
      reflexivity.
    + intros B row y HB Hlen Hy.
      apply (for_loop_at_slot _ _ B 0 (quadRule st) row y Hy).
      intros q row' y' Hqr Hlen' Hy'. unfold add_at.
      rewrite (at_index_Ok _ _ _ Hy'). reflexivity.
  - intros A Klocal row HA Hlen Hrow. unfold row_loop.
    apply (for_loop_at_slot _ _ A 0 (dofs_per_cell st) Klocal row Hrow).
    intros B Klocal' row' HB Hlen' Hrow'.
    apply (for_loop_at_slot _ _ A 0 (quadRule st) Klocal' row' Hrow').
    intros q Klocal'' row'' Hqr Hlen'' Hrow''.
    destruct (quad_point_ok st q Hq ltac:(lia)) as [-> ->].
    rewrite !bind_Ok.
    rewrite (basis_gradient_value st A) by (unfold dofs_per_cell in *; lia).
    rewrite !bind_Ok.
    rewrite (basis_gradient_value st B) by (unfold dofs_per_cell in *; lia).
    rewrite !bind_Ok. unfold add_at2.
    rewrite (at_index_Ok _ _ _ Hrow''). reflexivity.
Qed.

Lemma length_scatterF st local_dof_indices (Flocal fv : list T) :
  length (scatterF st local_dof_indices Flocal fv) = length fv.
Proof.
  unfold scatterF. generalize (seq 0 (dofs_per_cell st)). intros l.
  revert fv. induction l as [|A l IH]; intros fv; [reflexivity|].
  cbn [foldl]. rewrite IH. apply length_insert.
Qed.

(** The scatter loops never fail when the element's degrees of freedom lie
    in the global vector. *)
Lemma scatter_ok st local_dof_indices (Flocal : list T)
  (Klocal : list (list T)) (k : SparseMatrix T) (fv : list T) :
  cell_wf st local_dof_indices ->
  length Flocal = dofs_per_cell st ->
  length Klocal = dofs_per_cell st ->
  Forall (fun row => length row = dofs_per_cell st) Klocal ->
  Forall (fun g => (g < length fv)%nat) local_dof_indices ->
  scatter st local_dof_indices Flocal Klocal (k, fv)
  = Ok (scatterK st local_dof_indices Klocal k,
        scatterF st local_dof_indices Flocal fv).
Proof.
  intros [Hlen Hall] HF HK HKrows Hfv. unfold scatter, scatterK, scatterF.
  rewrite <- foldl_pair.
  set (gK := fun (k : SparseMatrix T) A =>
         foldl
           (fun k B =>
              K_add k (default 0%nat (local_dof_indices !! A))
                (default 0%nat (local_dof_indices !! B))
                (entry (default [] (Klocal !! A)) B))
           k (seq 0 (dofs_per_cell st))).
  set (gF := fun (fv : list T) A =>
         <[default 0%nat (local_dof_indices !! A)
           := entry fv (default 0%nat (local_dof_indices !! A))
              + entry Flocal A]> fv).
  apply (for_loop_foldl_inv
           (fun _ kf => length kf.2 = length fv)
           (fun A kf => (gK kf.1 A, gF kf.2 A))); [reflexivity|].
  intros A [k' fv'] HA Hinv. cbn in Hinv. cbn [fst snd].
  destruct (lookup_lt_is_Some_2 local_dof_indices A ltac:(lia)) as [gA HgA].
  destruct (lookup_lt_is_Some_2 Flocal A ltac:(lia)) as [FA HFA].
  destruct (lookup_lt_is_Some_2 Klocal A ltac:(lia)) as [row Hrow].
  assert (Hrowlen : length row = dofs_per_cell st).
  { rewrite Forall_lookup in HKrows. exact (HKrows A row Hrow). }
  assert (HgAlt : (gA < length fv')%nat).
  { rewrite Forall_lookup in Hfv. rewrite Hinv. exact (Hfv A gA HgA). }
  split; [|unfold gF; rewrite length_insert; exact Hinv].
  rewrite (at_index_Ok _ _ _ HgA), (at_index_Ok _ _ _ HFA), !bind_Ok.
  unfold add_at. destruct (at_index_lt fv' gA HgAlt) as (y & Hy & ->).
  rewrite !bind_Ok.
  rewrite (for_loop_foldl
             (fun B k =>
                K_add k gA (default 0%nat (local_dof_indices !! B))
                  (entry row B))).
  - rewrite bind_Ok. unfold gK, gF, entry. rewrite HgA, HFA, Hrow.
    cbn [default from_option]. unfold Datatypes.id. rewrite Hy.
    reflexivity.
  - intros B k'' HB.
    destruct (lookup_lt_is_Some_2 local_dof_indices B ltac:(lia)) as [gB HgB].
    destruct (lookup_lt_is_Some_2 row B ltac:(lia)) as [KAB HKAB].
    rewrite bind_Ok, (at_index_Ok _ _ _ HgB), bind_Ok.
    rewrite (at_index_Ok _ _ _ Hrow), bind_Ok.
    rewrite (at_index_Ok _ _ _ HKAB), bind_Ok.
    unfold entry. rewrite HgB, HKAB. reflexivity.
Qed.

Lemma length_fluxLoad st local_dof_indices (Flocal : list T) :
  length (fluxLoad st local_dof_indices Flocal) = length Flocal.
Proof.
  unfold fluxLoad.
  destruct (bool_decide (prob st = 2%nat)
            && (nodeCoordinate st local_dof_indices 1 == L st));
    [apply length_insert | reflexivity].
Qed.

(** One turn of the loop over elements never fails on a well-formed
    element, whatever its length. *)
Lemma assemble_element_ok st local_dof_indices (k : SparseMatrix T)
  (fv : list T) :
  cell_wf st local_dof_indices -> quadrature_wf st ->
  (1 ≤ basisFunctionOrder st)%nat ->
  Forall (fun g => (g < length fv)%nat) local_dof_indices ->
  assemble_element st local_dof_indices (k, fv)
  = Ok (scatterK st local_dof_indices (elementStiffness st local_dof_indices)
          k,
        scatterF st local_dof_indices (elementLoad st local_dof_indices) fv).
Proof.
  intros Hwf Hq Ho Hfv. unfold assemble_element.
  rewrite element_length_ok, bind_Ok by assumption.
  rewrite load_integrals_ok, bind_Ok by assumption.
  rewrite neumann_condition_ok, bind_Ok
    by (try assumption; rewrite length_map, length_seq; reflexivity).
  rewrite stiffness_integrals_ok, bind_Ok by assumption.
  apply scatter_ok; try assumption.
  - unfold elementLoad.
    rewrite length_fluxLoad, length_map, length_seq. reflexivity.
  - unfold elementStiffness, stiffnessMatrix.
    rewrite length_map, length_seq. reflexivity.
  - unfold elementStiffness, stiffnessMatrix.
    apply Forall_forall. intros row Hrow.
    apply list_elem_of_fmap in Hrow as (A & -> & _).
    rewrite length_map, length_seq. reflexivity.
Qed.

(** The loop over elements never fails on a mesh of well-formed elements,
    whatever their lengths, and keeps the size of the global vector. *)
Lemma assemble_elements_ok st (cells : list (list nat))
  (k : SparseMatrix T) (fv : list T) :
  quadrature_wf st -> (1 ≤ basisFunctionOrder st)%nat ->
  Forall (cell_wf st) cells ->
  Forall (Forall (fun g => (g < length fv)%nat)) cells ->
  exists k' fv',
    assemble_elements st cells (k, fv) = Ok (k', fv')
    ∧ length fv' = length fv.
Proof.
  intros Hq Ho. revert k fv.
  induction cells as [|elem cells IH]; intros k fv Hwf Hfv.
  { exists k, fv. split; reflexivity. }
  apply Forall_cons in Hwf as [Helem Hwf].
  apply Forall_cons in Hfv as [Hefv Hfv].
  cbn [assemble_elements].
  rewrite assemble_element_ok, bind_Ok by assumption.
  destruct (IH (scatterK st elem (elementStiffness st elem) k)
              (scatterF st elem (elementLoad st elem) fv) Hwf)
    as (k' & fv' & Hrun & Hlen).
  { rewrite length_scatterF. exact Hfv. }
  exists k', fv'. split; [exact Hrun|].
  rewrite Hlen. apply length_scatterF.
Qed.

(** The scatter of the load vector, entry by entry: a turn of the loop
    writes the entry of [F] at the global degree of freedom of its local
    node only. *)
Lemma scatterF_turns_frame local_dof_indices (Flocal : list T)
  (l : list nat) (fv : list T) (i : nat) :
  (forall B, B ∈ l -> default 0%nat (local_dof_indices !! B) ≠ i) ->
  foldl
    (fun fv A =>
       let gA := default 0%nat (local_dof_indices !! A) in
       <[gA := entry fv gA + entry Flocal A]> fv)
    fv l !! i
  = fv !! i.
Proof.
  revert fv. induction l as [|A l IH]; intros fv Hl; [reflexivity|].
  cbn [foldl]. rewrite IH by (intros B HB; apply Hl, list_elem_of_further, HB).
  apply list_lookup_insert_ne, Hl, list_elem_of_here.
Qed.

(** On an element whose local nodes are distinct degrees of freedom, the
    scatter adds the entry of local node [A] to the entry of [F] at its
    global degree of freedom. *)
Lemma scatterF_entry st local_dof_indices (Flocal fv : list T) (A : nat) :
  NoDup local_dof_indices ->
  length local_dof_indices = dofs_per_cell st ->
  (A < dofs_per_cell st)%nat ->
  (default 0%nat (local_dof_indices !! A) < length fv)%nat ->
  scatterF st local_dof_indices Flocal fv
    !! default 0%nat (local_dof_indices !! A)
  = Some (entry fv (default 0%nat (local_dof_indices !! A)) + entry Flocal A).
Proof.
  intros Hnd Hlen HA Hfv. unfold scatterF.
  assert (Hdistinct : forall B : nat,
            (B < dofs_per_cell st)%nat -> B ≠ A ->
            default 0%nat (local_dof_indices !! B)
            ≠ default 0%nat (local_dof_indices !! A)).
  { intros B HB Hne Heq. apply Hne.
    destruct (lookup_lt_is_Some_2 local_dof_indices A) as [a Ha]; [lia|].
    destruct (lookup_lt_is_Some_2 local_dof_indices B) as [b Hb]; [lia|].
    rewrite Ha, Hb in Heq. cbn in Heq. subst b.
    exact (NoDup_lookup _ _ _ _ Hnd Hb Ha). }
  replace (dofs_per_cell st) with (A + S (dofs_per_cell st - S A))%nat
    at 1 by lia.
  rewrite seq_app, foldl_app. cbn [seq foldl].
  rewrite scatterF_turns_frame.
  2:{ intros B HB. apply elem_of_seq in HB. apply Hdistinct; lia. }
  set (turn := fun (fv : list T) (A : nat) =>
                 <[default 0%nat (local_dof_indices !! A)
                   := entry fv (default 0%nat (local_dof_indices !! A))
                      + entry Flocal A]> fv).
  assert (Hlength : forall (l : list nat) (fv0 : list T),
            length (foldl turn fv0 l) = length fv0).
  { induction l as [|B l IH]; intros fv0; [reflexivity|].
    cbn [foldl]. rewrite IH. apply length_insert. }
  rewrite list_lookup_insert_eq by (rewrite Hlength; exact Hfv).
  f_equal. f_equal. unfold entry. f_equal.
  apply scatterF_turns_frame.
  intros B HB. apply elem_of_seq in HB. apply Hdistinct; lia.
Qed.

(** C4. On an element of problem 2 whose local node 1 has a coordinate
    [==] to [L], the local load vector that the assembly of the element
    scatters into [F] is the vector of the distributed-load quadrature sums
    with the flux [h] added to the entry of local node 1, and the entry of
    [F] at the degree of freedom of that node rises by the quadrature sum
    plus [h]; on the other elements of problem 2, and in problem 1 on every
    element, the vector that is scattered is the vector of quadrature sums
    alone. *)
Theorem neumann_flux_term st local_dof_indices (k : SparseMatrix T)
  (fv : list T) :
  cell_wf st local_dof_indices -> quadrature_wf st ->
  (1 ≤ basisFunctionOrder st)%nat ->
  Forall (fun g => (g < length fv)%nat) local_dof_indices ->
  let h_e := elementLength st local_dof_indices in
  let integrals :=
    map (loadIntegral st local_dof_indices h_e) (seq 0 (dofs_per_cell st)) in
  let with_flux :=
    <[1%nat := loadIntegral st local_dof_indices h_e 1 + h st]> integrals in
  let K' :=
    scatterK st local_dof_indices (elementStiffness st local_dof_indices) k in
  let right_dof := default 0%nat (local_dof_indices !! 1%nat) in
  load_integrals st local_dof_indices h_e = Ok integrals
  ∧ node_x st local_dof_indices 1 = Ok (nodeCoordinate st local_dof_indices 1)
  ∧ (prob st = 2%nat ->
     (nodeCoordinate st local_dof_indices 1 == L st) = true ->
     neumann_condition st local_dof_indices integrals = Ok with_flux
     ∧ assemble_element st local_dof_indices (k, fv)
       = Ok (K', scatterF st local_dof_indices with_flux fv)
     ∧ (NoDup local_dof_indices ->
        scatterF st local_dof_indices with_flux fv !! right_dof
        = Some (entry fv right_dof
                + (loadIntegral st local_dof_indices h_e 1 + h st))))
  ∧ (prob st = 2%nat ->
     (nodeCoordinate st local_dof_indices 1 == L st) = false ->
     neumann_condition st local_dof_indices integrals = Ok integrals
     ∧ assemble_element st local_dof_indices (k, fv)
       = Ok (K', scatterF st local_dof_indices integrals fv))
  ∧ (prob st = 1%nat ->
     neumann_condition st local_dof_indices integrals = Ok integrals
     ∧ assemble_element st local_dof_indices (k, fv)
       = Ok (K', scatterF st local_dof_indices integrals fv)).
Proof.
  intros Hwf Hq Ho Hfv h_e integrals with_flux K' right_dof.
  assert (Hlen : length integrals = dofs_per_cell st).
  { unfold integrals. rewrite length_map, length_seq. reflexivity. }
  assert (Hentry : entry integrals 1 = loadIntegral st local_dof_indices h_e 1).
  { unfold integrals, entry.
    rewrite lookup_map_seq by (unfold dofs_per_cell; lia). reflexivity. }
  pose proof (assemble_element_ok st local_dof_indices k fv Hwf Hq Ho Hfv)
    as Hrun.
  fold K' in Hrun. unfold elementLoad in Hrun.
  fold h_e in Hrun. fold integrals in Hrun.
  split; [apply load_integrals_ok; assumption|].
  split; [apply node_x_ok; [assumption | unfold dofs_per_cell; lia]|].
  split; [|split].
  - intros Hp HL.
    assert (Hflux : fluxLoad st local_dof_indices integrals = with_flux).
    { unfold fluxLoad. rewrite HL, bool_decide_eq_true_2 by exact Hp.
      cbn [andb]. rewrite Hentry. reflexivity. }
    rewrite Hflux in Hrun.
    split; [rewrite neumann_condition_ok, Hflux by assumption; reflexivity|].
    split; [exact Hrun|].
    intros Hnd. unfold right_dof.
    rewrite (scatterF_entry st local_dof_indices with_flux fv 1 Hnd).
    + unfold with_flux, entry at 2.
      rewrite list_lookup_insert_eq
        by (rewrite Hlen; unfold dofs_per_cell; lia).
      reflexivity.
    + apply Hwf.
    + unfold dofs_per_cell. lia.
    + destruct Hwf as [Hcell _].
      destruct (lookup_lt_is_Some_2 local_dof_indices 1) as [g Hg].
      { rewrite Hcell. unfold dofs_per_cell. lia. }
      rewrite Hg. cbn.
      exact (proj1 (Forall_lookup _ _) Hfv 1%nat g Hg).
  - intros Hp HL.
    assert (Hflux : fluxLoad st local_dof_indices integrals = integrals).
    { unfold fluxLoad. rewrite HL, andb_false_r. reflexivity. }
    rewrite Hflux in Hrun.
    split; [rewrite neumann_condition_ok, Hflux by assumption; reflexivity|].
    exact Hrun.
  - intros Hp.
    assert (Hflux : fluxLoad st local_dof_indices integrals = integrals).
    { unfold fluxLoad. rewrite bool_decide_eq_false_2 by lia. reflexivity. }
    rewrite Hflux in Hrun.
    split; [rewrite neumann_condition_ok, Hflux by assumption; reflexivity|].
    exact Hrun.
Qed.

(** C6, as the code has it.  The length of an element is computed and used
    without any test: on every well-formed element, whatever the sign of
    [h_e], the turn of the assembly loop returns, and it has added the
    element's load vector (quadrature sums scaled by [h_e/2]) and stiffness
    matrix (scaled by [2/h_e]) into the global vector and matrix. *)
Theorem assemble_element_unchecked_length st local_dof_indices
  (k : SparseMatrix T) (fv : list T) :
  cell_wf st local_dof_indices -> quadrature_wf st ->
  (1 ≤ basisFunctionOrder st)%nat ->
  Forall (fun g => (g < length fv)%nat) local_dof_indices ->
  element_length st local_dof_indices
  = Ok (elementLength st local_dof_indices)
  ∧ assemble_element st local_dof_indices (k, fv)
    = Ok (scatterK st local_dof_indices
            (elementStiffness st local_dof_indices) k,
          scatterF st local_dof_indices
            (elementLoad st local_dof_indices) fv).
Proof.
  intros Hwf Hq Ho Hfv. split.
  - apply element_length_ok; assumption.
  - apply assemble_element_ok; assumption.
Qed.

End Assembler.

Lemma prepared_states :
  prepare 1 2 2 (dof_handler two_elements) = Ok flux_problem
  ∧ prepare 1 1 1 reversed_mesh = Ok reversed_element
  ∧ prepare 1 1 1 collapsed_mesh = Ok collapsed_element.
Proof. repeat split; vm_compute; reflexivity. Qed.

Lemma neumann_flux_term_witness :
  let st := flux_problem in
  let local_dof_indices := [1; 2]%nat in
  let k : SparseMatrix float := ∅ in
  let fv := [0; 0; 0]%float in
  let h_e := elementLength st local_dof_indices in
  let integrals :=
    map (loadIntegral st local_dof_indices h_e) (seq 0 (dofs_per_cell st)) in
  let with_flux :=
    <[1%nat := (loadIntegral st local_dof_indices h_e 1 + h st)%D]>
      integrals in
  let K' :=
    scatterK st local_dof_indices (elementStiffness st local_dof_indices) k in
  let right_dof := default 0%nat (local_dof_indices !! 1%nat) in
  load_integrals st local_dof_indices h_e = Ok integrals
  ∧ node_x st local_dof_indices 1 = Ok (nodeCoordinate st local_dof_indices 1)
  ∧ (prob st = 2%nat ->
     (nodeCoordinate st local_dof_indices 1 == L st)%D = true ->
     neumann_condition st local_dof_indices integrals = Ok with_flux
     ∧ assemble_element st local_dof_indices (k, fv)
       = Ok (K', scatterF st local_dof_indices with_flux fv)
     ∧ (NoDup local_dof_indices ->
        scatterF st local_dof_indices with_flux fv !! right_dof
        = Some (entry fv right_dof
                + (loadIntegral st local_dof_indices h_e 1 + h st))%D))
  ∧ (prob st = 2%nat ->
     (nodeCoordinate st local_dof_indices 1 == L st)%D = false ->
     neumann_condition st local_dof_indices integrals = Ok integrals
     ∧ assemble_element st local_dof_indices (k, fv)
       = Ok (K', scatterF st local_dof_indices integrals fv))
  ∧ (prob st = 1%nat ->
     neumann_condition st local_dof_indices integrals = Ok integrals
     ∧ assemble_element st local_dof_indices (k, fv)
       = Ok (K', scatterF st local_dof_indices integrals fv)).
Proof.
  apply (neumann_flux_term flux_problem [1; 2]%nat ∅ [0; 0; 0]%float);
    concrete_wf.
Defined.

(** The same element evaluated: the entry of local node 1 is the
    quadrature sum plus the flux [1e10]; on the left element, whose local
    node 1 is interior, nothing is added. *)
Example neumann_flux_term_binary64 :
  (load_integrals flux_problem [1; 2]%nat (lit 5 (-2))
   ≫= fun Fq => Flocal ← neumann_condition flux_problem [1; 2]%nat Fq;
                Ok (Fq, Flocal))
  = Ok ([0x1.b4e81b4e81b52p-10; 0x1.1111111111113p-9],
        [0x1.b4e81b4e81b52p-10; 0x1.2a05f20000444p+33])%float
  ∧ (load_integrals flux_problem [0; 1]%nat (lit 5 (-2))
     ≫= fun Fq => Flocal ← neumann_condition flux_problem [0; 1]%nat Fq;
                  Ok (Fq, Flocal))
    = Ok ([0x1.b4e81b4e81b4fp-12; 0x1.b4e81b4e81b51p-11],
          [0x1.b4e81b4e81b4fp-12; 0x1.b4e81b4e81b51p-11])%float.
Proof. split; vm_compute; reflexivity. Qed.

(** The whole assembly of the two-element mesh, before the boundary values
    are applied: in problem 2 the entry of [F] at the right end holds the
    flux [1e10], in problem 1 it holds the quadrature sum alone, and the
    other entries are the same. *)
Example assemble_system_flux_binary64 :
  (st ← prepare 1 2 2 (dof_handler two_elements);
   st' ← assemble_system (fun _ k d fv => (k, d, fv)) st; Ok (F st'))
  = Ok [0x1.b4e81b4e81b4fp-12; 0x1.47ae147ae147dp-9;
        0x1.2a05f20000444p+33]%float
  ∧ (st ← prepare 1 1 2 (dof_handler two_elements);
     st' ← assemble_system (fun _ k d fv => (k, d, fv)) st; Ok (F st'))
    = Ok [0x1.b4e81b4e81b4fp-12; 0x1.47ae147ae147dp-9;
          0x1.1111111111113p-9]%float.
Proof. split; vm_compute; reflexivity. Qed.

Lemma assemble_element_unchecked_length_witness :
  let st := reversed_element in
  element_length st [0; 1]%nat = Ok (elementLength st [0; 1]%nat)
  ∧ assemble_element st [0; 1]%nat (∅, [0; 0]%float)
    = Ok (scatterK st [0; 1]%nat (elementStiffness st [0; 1]%nat) ∅,
          scatterF st [0; 1]%nat (elementLoad st [0; 1]%nat) [0; 0]%float).
Proof.
  apply (assemble_element_unchecked_length reversed_element [0; 1]%nat);
    concrete_wf.
Defined.

(** C6 as stated fails: an element of negative length is assembled like any
    other.  On [reversed_element] the length is [-0.1] and
    [assemble_system] returns, with the element's contributions in the
    global load vector and stiffness matrix. *)
Lemma reversed_element_is_assembled :
  element_length reversed_element [0; 1]%nat = Ok (-0x1.999999999999ap-4)%float
  ∧ PrimFloat.leb (-0x1.999999999999ap-4) 0 = true
  ∧ exists st',
      assemble_system (fun _ k d fv => (k, d, fv)) reversed_element = Ok st'
      ∧ F st' = [-0x1.b4e81b4e81b52p-9; -0x1.b4e81b4e81b4fp-10]%float
      ∧ map (fun ij => K_entry (K st') ij.1 ij.2)
          (list_prod (seq 0 2) (seq 0 2))
        = [-0x1.4000000000001p+3; 0x1.4000000000001p+3;
           0x1.4000000000001p+3; -0x1.4000000000001p+3]%float.
Proof.
  split; [vm_compute; reflexivity|]. split; [vm_compute; reflexivity|].
  eexists. split; [vm_compute; reflexivity|].
  split; vm_compute; reflexivity.
Qed.

(** An element of length zero is assembled too: [2/h_e] is infinite and so
    are the stiffness entries it leaves in [K]. *)
Example collapsed_element_is_assembled :
  element_length collapsed_element [0; 1]%nat = Ok 0%float
  ∧ exists st',
      assemble_system (fun _ k d fv => (k, d, fv)) collapsed_element = Ok st'
      ∧ F st' = [0; 0]%float
      ∧ map (fun ij => K_entry (K st') ij.1 ij.2)
          (list_prod (seq 0 2) (seq 0 2))
        = [infinity; neg_infinity; neg_infinity; infinity].
Proof.
  split; [vm_compute; reflexivity|].
  eexists. split; [vm_compute; reflexivity|].
  split; vm_compute; reflexivity.
Qed.

(** ** The error evaluator *)

Section ErrorEvaluator.
Context {T : Type} `{Double T}.
Local Open Scope double_scope.
Implicit Types (st : FEM T) (xi : T) (local_dof_indices : list nat).

Lemma exact_solution_assigned st (u_exact : option T) (x : T) :
  prob st = 1%nat ∨ prob st = 2%nat ->
  exact_solution st u_exact x = Some (exactSolution st x).
Proof.
  intros [Hp | Hp]; unfold exactSolution, exact_solution; rewrite Hp;
    decide_tests; reflexivity.
Qed.

Lemma interpolate_x_u_ok st local_dof_indices xi :
  cell_wf st local_dof_indices ->
  (length (nodeLocation st) ≤ length (D st))%nat ->
  interpolate_x_u st local_dof_indices xi
  = Ok (errorCoordinate st local_dof_indices xi,
        solutionValue st local_dof_indices xi).
Proof.
  intros Hwf HD. unfold interpolate_x_u, errorCoordinate, solutionValue, dsum.
  rewrite <- foldl_pair.
  apply (for_loop_foldl
           (fun B xu =>
              (xu.1 + nodeCoordinate st local_dof_indices B
                      * basisValue (basisFunctionOrder st) B xi,
               xu.2 + entry (D st) (default 0%nat (local_dof_indices !! B))
                      * basisValue (basisFunctionOrder st) B xi))).
  intros B [x u_h] HB. cbn [fst snd].
  rewrite node_x_ok by (try assumption; lia).
  rewrite bind_Ok, basis_function_ok by (unfold dofs_per_cell in HB; lia).
  rewrite bind_Ok.
  destruct Hwf as [Hlen Hall].
  destruct (lookup_lt_is_Some_2 local_dof_indices B ltac:(lia)) as [gB HgB].
  rewrite (at_index_Ok _ _ _ HgB), bind_Ok.
  rewrite Forall_lookup in Hall. specialize (Hall B gB HgB).
  destruct (at_index_lt (D st) gB ltac:(lia)) as (dB & HdB & ->).
  rewrite bind_Ok. unfold entry. rewrite HgB. cbn [default from_option].
  unfold Datatypes.id. rewrite HdB. reflexivity.
Qed.

Lemma error_element_ok st local_dof_indices (l2norm : T)
  (u_exact : option T) :
  solved_wf st -> cell_wf st local_dof_indices ->
  exists u_exact',
    error_element st local_dof_indices (l2norm, u_exact)
    = Ok (dsum l2norm (errorIntegrand st local_dof_indices) 0 (quadRule st),
          u_exact').
Proof.
  intros (Ho & Hp & Hq & Hcells & HD) Hwf. unfold error_element.
  rewrite element_length_ok, bind_Ok by assumption.
  set (u := fun q =>
         exactSolution st
           (errorCoordinate st local_dof_indices (entry (quad_points st) q))).
  rewrite (for_loop_foldl
             (fun q acc =>
                (acc.1 + errorIntegrand st local_dof_indices q,
                 (fun (_ : option T) q => Some (u q)) acc.2 q))).
  - rewrite (foldl_pair
               (fun l2norm q => l2norm + errorIntegrand st local_dof_indices q)
               (fun (_ : option T) q => Some (u q))).
    eexists. reflexivity.
  - intros q [l2 ue] Hqr. cbn [fst snd].
    destruct (quad_point_ok st q Hq ltac:(lia)) as [-> ->].
    rewrite bind_Ok, interpolate_x_u_ok, bind_Ok by assumption.
    rewrite exact_solution_assigned by exact Hp.
    rewrite bind_Ok. reflexivity.
Qed.

Lemma error_elements_ok st (cells : list (list nat)) (l2norm : T)
  (u_exact : option T) :
  solved_wf st -> Forall (cell_wf st) cells ->
  exists u_exact',
    error_elements st cells (l2norm, u_exact)
    = Ok (errorTotal st cells l2norm, u_exact').
Proof.
  intros Hst. revert l2norm u_exact.
  induction cells as [|elem cells IH]; intros l2norm u_exact Hcells.
  { eexists. reflexivity. }
  apply Forall_cons in Hcells as [Helem Hcells]. cbn [error_elements].
  destruct (error_element_ok st elem l2norm u_exact Hst Helem) as [ue ->].
  rewrite bind_Ok. apply IH. exact Hcells.
Qed.

(** [l2norm_of_error] returns on every solved state: the square root of the
    running total. *)
Lemma l2norm_of_error_ok st :
  solved_wf st ->
  l2norm_squared st
  = Ok (errorTotal st (active_cells (dof_handler st)) (lit 0 0))
  ∧ l2norm_of_error st
    = Ok (dsqrt (errorTotal st (active_cells (dof_handler st)) (lit 0 0))).
Proof.
  intros Hst. assert (Hcells := Hst). destruct Hcells as (_ & _ & _ & Hcells & _).
  unfold l2norm_of_error, l2norm_squared.
  destruct (error_elements_ok st _ (lit 0 0) None Hst Hcells) as [ue ->].
  split; reflexivity.
Qed.

End ErrorEvaluator.

Section RealError.
Local Open Scope R_scope.
Implicit Types (st : FEM R).

Lemma dsum_Rsum (z : R) (t : nat -> R) (lo n : nat) :
  dsum z t lo n = z + Rsum (map t (seq lo n)).
Proof.
  unfold dsum. revert z lo. induction n as [|n IH]; intros z lo.
  - cbn. ring.
  - cbn [seq foldl map Rsum fold_right]. rewrite IH.
    change (dadd z (t lo)) with (z + t lo). unfold Rsum. ring.
Qed.

Lemma errorTotal_Rsum st (cells : list (list nat)) (z : R) :
  errorTotal st cells z
  = z + Rsum (map (fun local_dof_indices =>
                     Rsum (map (errorIntegrand st local_dof_indices)
                             (seq 0 (quadRule st))))
                cells).
Proof.
  unfold errorTotal. revert z. induction cells as [|elem cells IH]; intros z.
  - cbn. ring.
  - cbn [foldl map Rsum fold_right]. rewrite IH, dsum_Rsum.
    unfold Rsum. ring.
Qed.

(** Over the reals the literal [0.0] and the converted integer [0] are the
    same number, so the error evaluator's coordinate is the assembler's. *)
Lemma errorCoordinate_R st local_dof_indices (xi : R) :
  errorCoordinate st local_dof_indices xi
  = physicalCoordinate st local_dof_indices xi.
Proof. reflexivity. Qed.

Lemma errorIntegrand_R st local_dof_indices (q : nat) :
  errorIntegrand st local_dof_indices q
  = (solutionValue st local_dof_indices (entry (quad_points st) q)
     - exactSolution st
         (physicalCoordinate st local_dof_indices (entry (quad_points st) q)))
    ^ 2
    * (elementLength st local_dof_indices / 2)
    * entry (quad_weight st) q.
Proof.
  unfold errorIntegrand. rewrite errorCoordinate_R.
  cbv zeta. unfold_R. field.
Qed.


End RealError.

Lemma solved_line_wf : solved_wf solved_line.
Proof.
  split; [cbn; lia|]. split; [left; reflexivity|].
  split; [split; cbn; lia|].
  split; [|cbn; lia].
  repeat constructor.
Defined.


(** The error norm of a run in binary64: one linear element on [0, 0.1],
    problem 1, with the prescribed end values as the solution vector. *)
Example l2norm_of_error_binary64 :
  (st ← prepare 1 1 1
          {| active_cells := [[0; 1]%nat];
             support_points := [lit 0 0; lit 1 (-1)] |};
   l2norm_of_error (solve (fun _ _ => [lit 0 0; lit 1 (-3)]) st))
  = Ok 0x1.e6ffeddbb7842p-17%float.
Proof. vm_compute. reflexivity. Qed.

(** ** Further properties of the code *)

(** *** The basis evaluator at any order *)

Section EvaluatorAnyOrder.
Context {T : Type} `{Double T}.
Local Open Scope double_scope.
Implicit Types (st : FEM T) (xi : T).

(** X1. At every order, supported or not, [basis_function] returns the
    Lagrange product over the nodes [0 .. order] for each of these nodes,
    and for node 1 even at order 0; for every other node it stops at the
    first turn of its loop with the message on the node number. *)
Theorem basis_function_any_order st node xi :
  ((node ≤ basisFunctionOrder st)%nat ∨ (node ≤ 1)%nat ->
   basis_function st node xi
   = Ok (basisValue (basisFunctionOrder st) node xi))
  ∧ ((2 ≤ node)%nat -> (basisFunctionOrder st < node)%nat ->
     basis_function st node xi
     = Fail (ExitNodeNumber node (basisFunctionOrder st + 1))).
Proof.
  split.
  - apply basis_function_ok.
  - apply basis_function_exit.
Qed.

(** X2. [basis_gradient] returns a value exactly when the order is not one
    of 1, 2, 3 or the node is a local node of the element.  Past the order
    it fails: by the assertion at order 1, and in [xi_at_node], with the
    message on the node number, at orders 2 and 3. *)
Theorem basis_gradient_returns_iff st node xi :
  ((exists g, basis_gradient st node xi = Ok g)
   <-> ¬ (1 ≤ basisFunctionOrder st ≤ 3)%nat
       ∨ (node ≤ basisFunctionOrder st)%nat)
  ∧ (basisFunctionOrder st = 1%nat -> (1 < node)%nat ->
     basis_gradient st node xi = Fail AssertFailed)
  ∧ ((2 ≤ basisFunctionOrder st ≤ 3)%nat ->
     (basisFunctionOrder st < node)%nat ->
     basis_gradient st node xi
     = Fail (ExitNodeNumber node (basisFunctionOrder st + 1))).
Proof.
  split; [split|split].
  - intros [g Hg].
    destruct (decide (1 ≤ basisFunctionOrder st ≤ 3)%nat) as [Ho|Ho];
      [|left; exact Ho].
    right. destruct (decide (node ≤ basisFunctionOrder st)%nat) as [|Hn];
      [assumption|].
    rewrite basis_gradient_bad_node in Hg by lia. discriminate Hg.
  - intros [Ho | Hnode]; [|apply basis_gradient_ok; exact Hnode].
    eexists. unfold basis_gradient. decide_tests. reflexivity.
  - intros Ho Hnode. rewrite basis_gradient_bad_node by lia.
    rewrite bool_decide_eq_true_2 by exact Ho. reflexivity.
  - intros Ho Hnode. rewrite basis_gradient_bad_node by lia.
    rewrite bool_decide_eq_false_2 by lia. reflexivity.
Qed.

End EvaluatorAnyOrder.

(** *** Sums of reals *)

Section RealSums.
Local Open Scope R_scope.

Lemma Rsum_map_ext {A} (f g : A -> R) (l : list A) :
  (forall a, a ∈ l -> f a = g a) -> Rsum (map f l) = Rsum (map g l).
Proof.
  induction l as [|a l IH]; intros Hfg; [reflexivity|].
  cbn [map Rsum fold_right]. rewrite (Hfg a) by apply list_elem_of_here.
  f_equal. apply IH. intros b Hb. apply Hfg. apply list_elem_of_further, Hb.
Qed.

Lemma Rsum_map_plus {A} (f g : A -> R) (l : list A) :
  Rsum (map (fun a => f a + g a) l) = Rsum (map f l) + Rsum (map g l).
Proof.
  induction l as [|a l IH]; cbn [map Rsum fold_right]; [ring|].
  fold (Rsum (map (fun a => f a + g a) l)). fold (Rsum (map f l)).
  fold (Rsum (map g l)). rewrite IH. ring.
Qed.

Lemma Rsum_map_scal {A} (c : R) (f : A -> R) (l : list A) :
  Rsum (map (fun a => c * f a) l) = c * Rsum (map f l).
Proof.
  induction l as [|a l IH]; cbn [map Rsum fold_right]; [ring|].
  fold (Rsum (map (fun a => c * f a) l)). fold (Rsum (map f l)).
  rewrite IH. ring.
Qed.

Lemma Rsum_map_zero {A} (l : list A) : Rsum (map (fun _ => 0) l) = 0.
Proof.
  induction l as [|a l IH]; cbn [map Rsum fold_right]; [reflexivity|].
  fold (Rsum (map (fun _ : A => 0) l)). rewrite IH. ring.
Qed.

Lemma Rsum_map_nonneg {A} (f : A -> R) (l : list A) :
  (forall a, a ∈ l -> 0 <= f a) -> 0 <= Rsum (map f l).
Proof.
  induction l as [|a l IH]; intros Hf; cbn [map Rsum fold_right]; [lra|].
  fold (Rsum (map f l)).
  assert (0 <= f a) by (apply Hf, list_elem_of_here).
  assert (0 <= Rsum (map f l))
    by (apply IH; intros b Hb; apply Hf, list_elem_of_further, Hb).
  lra.
Qed.

(** The two orders of a double sum. *)
Lemma Rsum_exchange {A B} (f : A -> B -> R) (la : list A) (lb : list B) :
  Rsum (map (fun a => Rsum (map (f a) lb)) la)
  = Rsum (map (fun b => Rsum (map (fun a => f a b) la)) lb).
Proof.
  induction la as [|a la IH].
  - cbn [map Rsum fold_right]. symmetry. apply Rsum_map_zero.
  - cbn [map Rsum fold_right].
    fold (Rsum (map (f a) lb)).
    fold (Rsum (map (fun a => Rsum (map (f a) lb)) la)).
    rewrite IH, <- Rsum_map_plus. reflexivity.
Qed.

(** A sum of the code, started from zero, as a sum of reals. *)
Lemma dsum_zero_Rsum (t : nat -> R) (lo n : nat) :
  dsum (T:=R) 0 t lo n = Rsum (map t (seq lo n)).
Proof. rewrite dsum_Rsum. ring. Qed.

Lemma Rsum_insert (l : list R) (i : nat) (x y : R) :
  l !! i = Some x -> Rsum (<[i := y]> l) = Rsum l + (y - x).
Proof.
  revert i. induction l as [|a l IH]; intros i Hi; [discriminate|].
  destruct i as [|i]; cbn in Hi.
  - injection Hi as ->. cbn. ring.
  - cbn [insert list_insert Rsum fold_right].
    change (fold_right Rplus 0 (<[i := y]> l)) with (Rsum (<[i := y]> l)).
    rewrite (IH i Hi). unfold Rsum. ring.
Qed.

End RealSums.

(** *** Gradients and nodal values over the reals *)

Section RealGradients.
Local Open Scope R_scope.
Implicit Types (st : FEM R) (xi : R).

Lemma basisGradient_Rsum_zero st xi :
  (1 ≤ basisFunctionOrder st ≤ 3)%nat ->
  Rsum (map (fun node => basisGradient st node xi)
          (seq 0 (S (basisFunctionOrder st)))) = 0.
Proof.
  intros Ho. unfold basisGradient.
  destruct (supported_order_cases _ Ho) as [Ho' | [Ho' | Ho']];
    rewrite Ho'; cbn [seq map Rsum fold_right];
    eval_basis_gradient Ho'; field; lra.
Qed.

(** X3. For every order in {1, 2, 3} and every [xi], the values that
    [basis_gradient] returns for the nodes [0 .. order] sum to zero: a
    constant field has no gradient. *)
Theorem basis_gradient_sum_zero st xi :
  (1 ≤ basisFunctionOrder st ≤ 3)%nat ->
  exists G : nat -> R,
    (forall node, (node ≤ basisFunctionOrder st)%nat ->
                  basis_gradient st node xi = Ok (G node))
    ∧ dsum (T:=R) 0 G 0 (S (basisFunctionOrder st)) = 0.
Proof.
  intros Ho. exists (fun node => basisGradient st node xi). split.
  - intros node Hnode. apply basis_gradient_value. exact Hnode.
  - rewrite dsum_zero_Rsum. apply basisGradient_Rsum_zero. exact Ho.
Qed.

End RealGradients.

Lemma basis_gradient_sum_zero_witness :
  exists G : nat -> R,
    (forall node, (node ≤ 3)%nat ->
                  basis_gradient (order_state 3) node (1 / 3)%R = Ok (G node))
    ∧ dsum (T:=R) 0%R G 0 4 = 0%R.
Proof.
  apply (basis_gradient_sum_zero (order_state 3) (1 / 3)%R). cbn. lia.
Defined.

Section RealInterpolation.
Local Open Scope R_scope.
Implicit Types (st : FEM R) (xi : R) (local_dof_indices : list nat).

(** Interpolating nodal values at the reference coordinate of a node gives
    back the value of that node. *)
Lemma nodal_interpolation (v : nat -> R) (order j : nat) :
  (1 ≤ order ≤ 3)%nat -> (j ≤ order)%nat ->
  Rsum (map (fun B => v B * basisValue order B (referenceCoordinate order j))
          (seq 0 (S order))) = v j.
Proof.
  intros Ho Hj.
  rewrite (Rsum_map_ext _
             (fun B => v B * (if bool_decide (B = j) then 1 else 0))).
  2:{ intros B HB. apply elem_of_seq in HB.
      rewrite basisValue_nodal by lia. reflexivity. }
  destruct (supported_order_cases order Ho) as [-> | [-> | ->]].
  - destruct j as [|[|j]]; try lia;
      cbn [seq map Rsum fold_right]; decide_tests; ring.
  - destruct j as [|[|[|j]]]; try lia;
      cbn [seq map Rsum fold_right]; decide_tests; ring.
  - destruct j as [|[|[|[|j]]]]; try lia;
      cbn [seq map Rsum fold_right]; decide_tests; ring.
Qed.

(** X4. For every order in {1, 2, 3}: at the reference coordinate of local
    node [j], the interpolation loops of the assembler and of the error
    evaluator return the coordinate of that node, and the entry of [D] at
    its global degree of freedom: the finite element solution takes the
    nodal values at the nodes. *)
Theorem interpolation_at_nodes st local_dof_indices (j : nat) :
  (1 ≤ basisFunctionOrder st ≤ 3)%nat -> (j ≤ basisFunctionOrder st)%nat ->
  cell_wf st local_dof_indices ->
  (length (nodeLocation st) ≤ length (D st))%nat ->
  exists xi_j,
    xi_at_node st j = Ok xi_j
    ∧ interpolate_x st local_dof_indices xi_j
      = Ok (nodeCoordinate st local_dof_indices j)
    ∧ interpolate_x_u st local_dof_indices xi_j
      = Ok (nodeCoordinate st local_dof_indices j,
            entry (D st) (globalDOF local_dof_indices j)).
Proof.
  intros Ho Hj Hwf HD.
  exists (referenceCoordinate (basisFunctionOrder st) j).
  split; [apply xi_at_node_ok; lia|].
  rewrite interpolate_x_ok, interpolate_x_u_ok by assumption.
  rewrite errorCoordinate_R. unfold physicalCoordinate, solutionValue.
  change (lit 0 0 : R) with 0. change (of_Z 0 : R) with 0.
  rewrite !dsum_zero_Rsum. unfold dofs_per_cell.
  rewrite (nodal_interpolation (nodeCoordinate st local_dof_indices))
    by assumption.
  rewrite (nodal_interpolation
             (fun B => entry (D st) (default 0%nat (local_dof_indices !! B))))
    by assumption.
  split; reflexivity.
Qed.

End RealInterpolation.

Lemma interpolation_at_nodes_witness :
  exists xi_j,
    xi_at_node solved_line 1 = Ok xi_j
    ∧ interpolate_x solved_line [1; 2]%nat xi_j
      = Ok (nodeCoordinate solved_line [1; 2]%nat 1)
    ∧ interpolate_x_u solved_line [1; 2]%nat xi_j
      = Ok (nodeCoordinate solved_line [1; 2]%nat 1,
            entry (D solved_line) (globalDOF [1; 2]%nat 1)).
Proof.
  apply (interpolation_at_nodes solved_line [1; 2]%nat 1).
  - cbn. lia.
  - cbn. lia.
  - split; [reflexivity | repeat constructor].
  - cbn. lia.
Defined.

(** *** The local matrices and vectors *)

Section LocalEntries.
Context {T : Type} `{Double T}.
Local Open Scope double_scope.
Implicit Types (st : FEM T) (h_e : T).

Lemma entry_map_seq (c : nat -> T) (n i : nat) :
  (i < n)%nat -> entry (map c (seq 0 n)) i = c i.
Proof.
  intros Hi. unfold entry. rewrite lookup_map_seq by exact Hi. reflexivity.
Qed.

Lemma entry2_stiffnessMatrix st h_e (A B : nat) :
  (A < dofs_per_cell st)%nat -> (B < dofs_per_cell st)%nat ->
  entry2 (stiffnessMatrix st h_e) A B = stiffnessIntegral st h_e A B.
Proof.
  intros HA HB. unfold entry2, stiffnessMatrix.
  rewrite lookup_map_seq by exact HA. cbn [default from_option].
  unfold Datatypes.id. apply entry_map_seq. exact HB.
Qed.

End LocalEntries.

Section RealStiffness.
Local Open Scope R_scope.
Implicit Types (st : FEM R) (h_e : R).

Lemma stiffnessIntegral_Rsum st h_e (A B : nat) :
  stiffnessIntegral st h_e A B
  = Rsum (map (fun q =>
                 2 / h_e * entry (quad_weight st) q
                 * basisGradient st A (entry (quad_points st) q)
                 * basisGradient st B (entry (quad_points st) q))
            (seq 0 (quadRule st))).
Proof.
  unfold stiffnessIntegral. change (of_Z 0 : R) with 0.
  rewrite dsum_zero_Rsum. apply Rsum_map_ext. intros q _.
  unfold_R. ring.
Qed.

(** X5. For an element length [h_e] that is not zero (at zero the code
    divides by zero, and the entries are infinite or not numbers), the local
    stiffness matrix that the loops over [A], [B] and [q] return is
    symmetric, at every order; and for every order in {1, 2, 3} each of its
    rows sums to zero, so that a constant displacement of the element
    produces no force. *)
Theorem local_stiffness_symmetric_rows_zero st h_e :
  quadrature_wf st -> h_e <> 0 ->
  exists Klocal,
    stiffness_integrals st h_e = Ok Klocal
    ∧ (forall A B : nat,
         (A ≤ basisFunctionOrder st)%nat -> (B ≤ basisFunctionOrder st)%nat ->
         entry2 Klocal A B = entry2 Klocal B A)
    ∧ ((1 ≤ basisFunctionOrder st ≤ 3)%nat ->
       forall A : nat,
         (A ≤ basisFunctionOrder st)%nat ->
         dsum (T:=R) 0 (entry2 Klocal A) 0 (S (basisFunctionOrder st)) = 0).
Proof.
  intros Hq Hh. exists (stiffnessMatrix st h_e).
  split; [apply stiffness_integrals_ok; exact Hq|]. split.
  - intros A B HA HB.
    rewrite !entry2_stiffnessMatrix by (unfold dofs_per_cell; lia).
    rewrite !stiffnessIntegral_Rsum. apply Rsum_map_ext. intros q _. ring.
  - intros Ho A HA. rewrite dsum_zero_Rsum.
    rewrite (Rsum_map_ext _ (stiffnessIntegral st h_e A)).
    2:{ intros B HB. apply elem_of_seq in HB.
        apply entry2_stiffnessMatrix; unfold dofs_per_cell; lia. }
    rewrite (Rsum_map_ext _ _ _
               (fun B _ => stiffnessIntegral_Rsum st h_e A B)).
    rewrite Rsum_exchange.
    rewrite (Rsum_map_ext _ (fun _ => 0)); [apply Rsum_map_zero|].
    intros q _.
    rewrite (Rsum_map_scal
               (2 / h_e * entry (quad_weight st) q
                * basisGradient st A (entry (quad_points st) q))
               (fun B => basisGradient st B (entry (quad_points st) q))).
    rewrite basisGradient_Rsum_zero by exact Ho. ring.
Qed.

End RealStiffness.

Lemma local_stiffness_symmetric_rows_zero_witness :
  exists Klocal,
    stiffness_integrals solved_line (1 / 20)%R = Ok Klocal
    ∧ (forall A B : nat,
         (A ≤ 1)%nat -> (B ≤ 1)%nat ->
         entry2 Klocal A B = entry2 Klocal B A)
    ∧ ((1 ≤ 1 ≤ 3)%nat ->
       forall A : nat,
         (A ≤ 1)%nat -> dsum (T:=R) 0%R (entry2 Klocal A) 0 2 = 0%R).
Proof.
  apply (local_stiffness_symmetric_rows_zero solved_line (1 / 20)%R).
  - split; cbn; lia.
  - lra.
Defined.

(** *** Scattering an element into the global system *)

Section ScatterFrame.
Context {T : Type} `{Double T}.
Local Open Scope double_scope.
Implicit Types (st : FEM T) (local_dof_indices : list nat).

Lemma globalDOF_elem_of local_dof_indices (A : nat) :
  (A < length local_dof_indices)%nat ->
  globalDOF local_dof_indices A ∈ local_dof_indices.
Proof.
  intros HA. unfold globalDOF.
  destruct (lookup_lt_is_Some_2 local_dof_indices A HA) as [g Hg].
  rewrite Hg. cbn. eapply list_elem_of_lookup_2. exact Hg.
Qed.

Lemma K_entry_K_add (k : SparseMatrix T) (a b i j : nat) (x : T) :
  K_entry (K_add k a b x) i j
  = if decide ((a, b) = (i, j)) then K_entry k i j + x else K_entry k i j.
Proof.
  unfold K_add, K_entry, SparseMatrix in *.
  destruct (decide ((a, b) = (i, j))) as [Heq | Hne].
  - injection Heq as -> ->. rewrite lookup_insert_eq. reflexivity.
  - rewrite lookup_insert_ne by exact Hne. reflexivity.
Qed.

Lemma scatterF_frame st local_dof_indices (Flocal fv : list T) (i : nat) :
  length local_dof_indices = dofs_per_cell st ->
  i ∉ local_dof_indices ->
  scatterF st local_dof_indices Flocal fv !! i = fv !! i.
Proof.
  intros Hlen Hi. unfold scatterF.
  assert (Hl : forall A, A ∈ seq 0 (dofs_per_cell st) ->
                         (A < dofs_per_cell st)%nat).
  { intros A HA. apply elem_of_seq in HA. lia. }
  revert Hl. generalize (seq 0 (dofs_per_cell st)). intros l. revert fv.
  induction l as [|A l IH]; intros fv Hl; [reflexivity|].
  cbn [foldl]. rewrite IH by (intros B HB; apply Hl, list_elem_of_further, HB).
  apply list_lookup_insert_ne. intros <-. apply Hi.
  apply (globalDOF_elem_of local_dof_indices A).
  rewrite Hlen. apply Hl, list_elem_of_here.
Qed.

Lemma scatterK_frame st local_dof_indices (Klocal : list (list T))
  (k : SparseMatrix T) (i j : nat) :
  length local_dof_indices = dofs_per_cell st ->
  i ∉ local_dof_indices ∨ j ∉ local_dof_indices ->
  K_entry (scatterK st local_dof_indices Klocal k) i j = K_entry k i j.
Proof.
  intros Hlen Hij. unfold scatterK.
  assert (Hl : forall A, A ∈ seq 0 (dofs_per_cell st) ->
                         (A < dofs_per_cell st)%nat).
  { intros A HA. apply elem_of_seq in HA. lia. }
  assert (Hinner : forall (lB : list nat) (A : nat) (k0 : SparseMatrix T),
    (A < dofs_per_cell st)%nat ->
    (forall B, B ∈ lB -> (B < dofs_per_cell st)%nat) ->
    K_entry
      (foldl
         (fun k B =>
            K_add k (default 0%nat (local_dof_indices !! A))
              (default 0%nat (local_dof_indices !! B))
              (entry (default [] (Klocal !! A)) B))
         k0 lB) i j
    = K_entry k0 i j).
  { induction lB as [|B lB IH]; intros A k0 HA HlB; [reflexivity|].
    cbn [foldl].
    rewrite IH by (try assumption;
                   intros B' HB'; apply HlB, list_elem_of_further, HB').
    rewrite K_entry_K_add. rewrite decide_False; [reflexivity|].
    intros Heq. injection Heq as <- <-.
    destruct Hij as [Hi | Hj].
    - apply Hi. apply (globalDOF_elem_of local_dof_indices A). lia.
    - apply Hj. apply (globalDOF_elem_of local_dof_indices B).
      rewrite Hlen. apply HlB, list_elem_of_here. }
  revert Hl. generalize (seq 0 (dofs_per_cell st)) at 1 3. intros lA.
  revert k. induction lA as [|A lA IH]; intros k HlA; [reflexivity|].
  cbn [foldl].
  rewrite IH by (intros B HB; apply HlA, list_elem_of_further, HB).
  apply Hinner.
  - apply HlA, list_elem_of_here.
  - intros B HB. apply elem_of_seq in HB. lia.
Qed.

(** X6. Assembling an element touches the global system at the element's
    own degrees of freedom only: every entry of [F] at another degree of
    freedom, and every entry of [K] whose row or column is another degree of
    freedom, is what it was; and [F] keeps its size. *)
Theorem assemble_element_frame st local_dof_indices
  (k : SparseMatrix T) (fv : list T) :
  cell_wf st local_dof_indices -> quadrature_wf st ->
  (1 ≤ basisFunctionOrder st)%nat ->
  Forall (fun g => (g < length fv)%nat) local_dof_indices ->
  exists k' fv',
    assemble_element st local_dof_indices (k, fv) = Ok (k', fv')
    ∧ length fv' = length fv
    ∧ (forall i : nat, i ∉ local_dof_indices -> fv' !! i = fv !! i)
    ∧ (forall i j : nat,
         i ∉ local_dof_indices ∨ j ∉ local_dof_indices ->
         K_entry k' i j = K_entry k i j).
Proof.
  intros Hwf Hq Ho Hfv. eexists _, _.
  split; [apply assemble_element_ok; assumption|].
  destruct Hwf as [Hlen _].
  split; [apply length_scatterF|]. split.
  - intros i Hi. apply scatterF_frame; assumption.
  - intros i j Hij. apply scatterK_frame; assumption.
Qed.

End ScatterFrame.

Lemma assemble_element_frame_witness :
  exists k' fv',
    assemble_element flux_problem [1; 2]%nat (∅, [0; 0; 0]%float)
    = Ok (k', fv')
    ∧ length fv' = 3%nat
    ∧ (forall i : nat, i ∉ [1; 2]%nat -> fv' !! i = [0; 0; 0]%float !! i)
    ∧ (forall i j : nat,
         i ∉ [1; 2]%nat ∨ j ∉ [1; 2]%nat ->
         K_entry k' i j = K_entry (∅ : SparseMatrix float) i j).
Proof.
  apply (assemble_element_frame flux_problem [1; 2]%nat ∅ [0; 0; 0]%float);
    concrete_wf.
Defined.

Section RealLoad.
Local Open Scope R_scope.
Implicit Types (st : FEM R) (h_e : R) (local_dof_indices : list nat).

Lemma loadIntegral_Rsum st local_dof_indices h_e (A : nat) :
  loadIntegral st local_dof_indices h_e A
  = Rsum (map (fun q =>
                 h_e / 2 * entry (quad_weight st) q
                 * physicalCoordinate st local_dof_indices
                     (entry (quad_points st) q)
                 * basisValue (basisFunctionOrder st) A
                     (entry (quad_points st) q))
            (seq 0 (quadRule st))).
Proof.
  unfold loadIntegral. change (lit 0 0 : R) with 0.
  rewrite dsum_zero_Rsum. apply Rsum_map_ext. intros q _.
  unfold_R. field.
Qed.

Lemma map_entry_seq (l : list R) : map (entry l) (seq 0 (length l)) = l.
Proof.
  apply list_eq. intros i. destruct (decide (i < length l)%nat) as [Hi|Hi].
  - rewrite lookup_map_seq by exact Hi. unfold entry.
    destruct (lookup_lt_is_Some_2 l i Hi) as [x ->]. reflexivity.
  - rewrite !lookup_ge_None_2; [reflexivity | lia |].
    rewrite length_map, length_seq. lia.
Qed.

(** The entries of the load vector add up to the quadrature of the source
    term over the element. *)
Lemma Rsum_loadIntegral st local_dof_indices h_e :
  (1 ≤ basisFunctionOrder st ≤ 3)%nat ->
  Rsum (map (loadIntegral st local_dof_indices h_e)
          (seq 0 (dofs_per_cell st)))
  = Rsum (map (fun q =>
                 h_e / 2 * entry (quad_weight st) q
                 * physicalCoordinate st local_dof_indices
                     (entry (quad_points st) q))
            (seq 0 (quadRule st))).
Proof.
  intros Ho.
  rewrite (Rsum_map_ext _ _ _
             (fun A _ => loadIntegral_Rsum st local_dof_indices h_e A)).
  rewrite Rsum_exchange. apply Rsum_map_ext. intros q _.
  rewrite (Rsum_map_scal
             (h_e / 2 * entry (quad_weight st) q
              * physicalCoordinate st local_dof_indices
                  (entry (quad_points st) q))
             (fun A => basisValue (basisFunctionOrder st) A
                         (entry (quad_points st) q))).
  unfold dofs_per_cell. rewrite <- dsum_zero_Rsum.
  rewrite basisValue_partition_of_unity by exact Ho. ring.
Qed.

Lemma Rsum_fluxLoad st local_dof_indices (Flocal : list R) :
  (1 < length Flocal)%nat ->
  Rsum (fluxLoad st local_dof_indices Flocal)
  = Rsum Flocal
    + (if bool_decide (prob st = 2%nat)
          && Reqb (nodeCoordinate st local_dof_indices 1) (L st)
       then h st else 0).
Proof.
  intros Hlen. unfold fluxLoad.
  change (deqb (nodeCoordinate st local_dof_indices 1) (L st))
    with (Reqb (nodeCoordinate st local_dof_indices 1) (L st)).
  destruct (bool_decide (prob st = 2%nat)
            && Reqb (nodeCoordinate st local_dof_indices 1) (L st));
    [|ring].
  destruct (lookup_lt_is_Some_2 Flocal 1 Hlen) as [x Hx].
  rewrite (Rsum_insert Flocal 1 x _ Hx). unfold entry. rewrite Hx. cbn.
  ring.
Qed.

Lemma Rsum_scatterF st local_dof_indices (Flocal fv : list R) :
  length local_dof_indices = dofs_per_cell st ->
  Forall (fun g => (g < length fv)%nat) local_dof_indices ->
  Rsum (scatterF st local_dof_indices Flocal fv)
  = Rsum fv + Rsum (map (entry Flocal) (seq 0 (dofs_per_cell st))).
Proof.
  intros Hlen Hfv. unfold scatterF.
  assert (Hl : forall A, A ∈ seq 0 (dofs_per_cell st) ->
                         (A < dofs_per_cell st)%nat).
  { intros A HA. apply elem_of_seq in HA. lia. }
  revert Hl. generalize (seq 0 (dofs_per_cell st)). intros l. revert fv Hfv.
  induction l as [|A l IH]; intros fv Hfv Hl.
  { cbn [foldl map]. change (Rsum (@nil R)) with 0. ring. }
  cbn [foldl map Rsum fold_right].
  fold (Rsum (map (entry Flocal) l)).
  assert (HA : (default 0%nat (local_dof_indices !! A) < length fv)%nat).
  { rewrite Forall_forall in Hfv. apply Hfv.
    apply (globalDOF_elem_of local_dof_indices A).
    rewrite Hlen. apply Hl, list_elem_of_here. }
  destruct (lookup_lt_is_Some_2 fv _ HA) as [x Hx].
  rewrite IH.
  - rewrite (Rsum_insert fv _ x _ Hx). unfold entry at 1. rewrite Hx. cbn.
    change (dadd x (entry Flocal A)) with (x + entry Flocal A). ring.
  - rewrite length_insert. exact Hfv.
  - intros B HB. apply Hl, list_elem_of_further, HB.
Qed.

(** X7. For every order in {1, 2, 3}, assembling an element raises the sum
    of the entries of [F] by the quadrature of the source term over the
    element, [sum_q (h_e/2) weight_q x_q], and by the flux [h] when the
    problem is 2 and local node 1 sits at [L]: the scatter loses nothing of
    the local load vector, and the basis functions share the whole load
    among the nodes. *)
Theorem assemble_element_total_load st local_dof_indices
  (k : SparseMatrix R) (fv : list R) :
  (1 ≤ basisFunctionOrder st ≤ 3)%nat ->
  cell_wf st local_dof_indices -> quadrature_wf st ->
  Forall (fun g => (g < length fv)%nat) local_dof_indices ->
  exists k' fv',
    assemble_element st local_dof_indices (k, fv) = Ok (k', fv')
    ∧ Rsum fv'
      = Rsum fv
        + Rsum (map (fun q =>
                       elementLength st local_dof_indices / 2
                       * entry (quad_weight st) q
                       * physicalCoordinate st local_dof_indices
                           (entry (quad_points st) q))
                  (seq 0 (quadRule st)))
        + (if bool_decide (prob st = 2%nat)
              && Reqb (nodeCoordinate st local_dof_indices 1) (L st)
           then h st else 0).
Proof.
  intros Ho Hwf Hq Hfv. eexists _, _.
  split; [apply assemble_element_ok; (assumption || lia)|].
  destruct Hwf as [Hlen _].
  rewrite Rsum_scatterF by assumption.
  assert (Hload : length (elementLoad st local_dof_indices)
                  = dofs_per_cell st).
  { unfold elementLoad.
    rewrite length_fluxLoad, length_map, length_seq. reflexivity. }
  rewrite <- Hload, map_entry_seq. unfold elementLoad.
  rewrite Rsum_fluxLoad
    by (rewrite length_map, length_seq; unfold dofs_per_cell; lia).
  rewrite Rsum_loadIntegral by exact Ho. ring.
Qed.

End RealLoad.

Lemma assemble_element_total_load_witness :
  exists k' fv',
    assemble_element solved_line [1; 2]%nat (∅, [0; 0; 0]%R) = Ok (k', fv')
    ∧ Rsum fv'
      = (Rsum [0; 0; 0]
         + Rsum (map (fun q =>
                        elementLength solved_line [1; 2]%nat / 2
                        * entry (quad_weight solved_line) q
                        * physicalCoordinate solved_line [1; 2]%nat
                            (entry (quad_points solved_line) q))
                   (seq 0 (quadRule solved_line)))
         + (if bool_decide (prob solved_line = 2%nat)
               && Reqb (nodeCoordinate solved_line [1; 2]%nat 1)
                    (L solved_line)
            then h solved_line else 0))%R.
Proof.
  apply (assemble_element_total_load solved_line [1; 2]%nat ∅ [0; 0; 0]%R).
  - cbn. lia.
  - split; [reflexivity | repeat constructor].
  - split; cbn; lia.
  - repeat constructor.
Defined.

(** *** The Dirichlet map across calls *)

Section DirichletAgain.
Context {T : Type} `{Double T}.
Local Open Scope double_scope.
Implicit Types (st : FEM T).

(** X8. [define_boundary_conds] only ever writes entries: an entry the map
    held before the call is still a key of the map after it, an entry at a
    degree of freedom that is no Dirichlet end (or past the degrees of
    freedom of the mesh) keeps its value, and a second call changes
    nothing. *)
Theorem define_boundary_conds_keeps_entries st :
  (n_dofs (dof_handler st) ≤ length (nodeLocation st))%nat ->
  exists st',
    define_boundary_conds st = Ok st'
    ∧ (forall (k : nat) (v : T),
         boundary_values st !! k = Some v ->
         exists v', boundary_values st' !! k = Some v')
    ∧ (forall (k : nat) (x : T),
         nodeLocation st !! k = Some x ->
         (x == of_Z 0) = false ->
         (x == L st) = false ∨ prob st ≠ 1%nat ->
         boundary_values st' !! k = boundary_values st !! k)
    ∧ (forall k : nat,
         (n_dofs (dof_handler st) ≤ k)%nat ->
         boundary_values st' !! k = boundary_values st !! k)
    ∧ define_boundary_conds st' = Ok st'.
Proof.
  intros Hlen.
  set (bv' := foldl (fun bv i => boundary_step st i bv) (boundary_values st)
                (seq 0 (n_dofs (dof_handler st)))).
  exists (set_boundary_values st bv').
  split; [apply define_boundary_conds_ok; exact Hlen|].
  cbn [boundary_values set_boundary_values].
  assert (Hlook := boundary_steps_lookup st (boundary_values st)
                     (n_dofs (dof_handler st))).
  fold bv' in Hlook.
  split; [|split; [|split]].
  - intros k v Hv. rewrite Hlook, Hv.
    destruct (bool_decide (k < n_dofs (dof_handler st))%nat);
      [|eexists; reflexivity].
    destruct (nodeLocation st !! k ≫= dirichlet_value st);
      eexists; reflexivity.
  - intros k x Hx H0 HL. rewrite Hlook, Hx. cbn [mbind option_bind].
    unfold dirichlet_value. rewrite H0.
    destruct HL as [-> | Hp].
    + destruct (bool_decide (k < n_dofs (dof_handler st))%nat); reflexivity.
    + rewrite (bool_decide_eq_false_2 _ Hp), andb_false_r.
      destruct (bool_decide (k < n_dofs (dof_handler st))%nat); reflexivity.
  - intros k Hk. rewrite Hlook, bool_decide_eq_false_2 by lia. reflexivity.
  - rewrite define_boundary_conds_ok by exact Hlen.
    cbn [boundary_values set_boundary_values dof_handler].
    unfold set_boundary_values. cbn. do 2 f_equal.
    change (foldl (fun bv i => boundary_step st i bv) bv'
              (seq 0 (n_dofs (dof_handler st))) = bv').
    apply map_eq. intros k. rewrite boundary_steps_lookup, Hlook.
    destruct (bool_decide (k < n_dofs (dof_handler st))%nat); [|reflexivity].
    destruct (nodeLocation st !! k ≫= dirichlet_value st); reflexivity.
Qed.

End DirichletAgain.

Lemma define_boundary_conds_keeps_entries_witness :
  exists st',
    define_boundary_conds stale_map = Ok st'
    ∧ (forall (k : nat) (v : float),
         boundary_values stale_map !! k = Some v ->
         exists v', boundary_values st' !! k = Some v')
    ∧ (forall (k : nat) (x : float),
         nodeLocation stale_map !! k = Some x ->
         (x == of_Z 0)%D = false ->
         (x == L stale_map)%D = false ∨ prob stale_map ≠ 1%nat ->
         boundary_values st' !! k = boundary_values stale_map !! k)
    ∧ (forall k : nat,
         (n_dofs (dof_handler stale_map) ≤ k)%nat ->
         boundary_values st' !! k = boundary_values stale_map !! k)
    ∧ define_boundary_conds st' = Ok st'.
Proof.
  apply (define_boundary_conds_keeps_entries stale_map). vm_compute. lia.
Defined.

(** The stale entry survives the call on [stale_map]. *)
Example define_boundary_conds_stale_binary64 :
  (st' ← define_boundary_conds stale_map;
   Ok (map (fun k => boundary_values st' !! k) (seq 0 4)))
  = Ok [Some 0%float; Some 7%float; Some (lit 1 (-3)); None].
Proof. vm_compute. reflexivity. Qed.

(** *** A whole run *)

Section Run.
Context {T : Type} `{Double T}.
Local Open Scope double_scope.
Implicit Types (st : FEM T) (dh : DoFHandler T).

(** X9. On a mesh whose elements each hold [order + 1] degrees of freedom
    of the mesh, with order at least 1 and problem 1 or 2, the whole run
    returns: set-up, assembly, the solve and the error norm, none of them
    reads past a vector or a variable that was not assigned, provided
    [apply_boundary_values] keeps the size of [F] and the solver returns a
    vector of that size.  The state it ends in is a solved state. *)
Theorem run_returns (order problem numberOfElements : nat) dh
  (apply_boundary_values :
     gmap nat T -> SparseMatrix T -> list T -> list T ->
     SparseMatrix T * list T * list T)
  (umfpack : SparseMatrix T -> list T -> list T) :
  (1 ≤ order)%nat -> problem = 1%nat ∨ problem = 2%nat ->
  Forall (fun cell => length cell = S order
                      ∧ Forall (fun g => (g < n_dofs dh)%nat) cell)
    (active_cells dh) ->
  (forall bv k d fv,
     length (apply_boundary_values bv k d fv).2 = length fv) ->
  (forall k fv, length (umfpack k fv) = length fv) ->
  exists st1 st2 e,
    prepare order problem numberOfElements dh = Ok st1
    ∧ assemble_system apply_boundary_values st1 = Ok st2
    ∧ solved_wf (solve umfpack st2)
    ∧ l2norm_of_error (solve umfpack st2) = Ok e.
Proof.
  intros Ho Hp Hcells Habv Humf.
  unfold prepare, FEM_new.
  rewrite (proj2 (orb_true_iff _ _)) by
    (destruct Hp as [-> | ->]; [left | right];
     apply bool_decide_eq_true_2; reflexivity).
  rewrite bind_Ok. unfold setup_system.
  rewrite define_boundary_conds_ok by (cbn; unfold n_dofs; lia).
  rewrite bind_Ok. cbn [dof_handler nodeLocation boundary_values
    basisFunctionOrder prob L g1 g2 E f h set_boundary_values generate_mesh
    set_L].
  match goal with |- exists st1 _ _, Ok ?s = Ok st1 ∧ _ => set (st1 := s) end.
  assert (Hq : quadrature_wf st1) by (split; cbn; lia).
  assert (Hwf : Forall (cell_wf st1) (active_cells dh)).
  { eapply Forall_impl; [exact Hcells|]. intros cell [Hlen Hall].
    split; [exact Hlen | exact Hall]. }
  assert (Hfv : Forall (Forall (fun g =>
                  (g < length (replicate (length (F st1)) (of_Z 0 : T)))%nat))
                  (active_cells dh)).
  { eapply Forall_impl; [exact Hcells|]. intros cell [_ Hall].
    cbn [F st1]. rewrite !length_replicate. exact Hall. }
  destruct (assemble_elements_ok st1 (active_cells dh) ∅
              (replicate (length (F st1)) (of_Z 0)) Hq Ho Hwf Hfv)
    as (k' & fv' & Hrun & Hlen).
  exists st1.
  unfold assemble_system. cbn [dof_handler st1] in *. rewrite Hrun, bind_Ok.
  destruct (apply_boundary_values (boundary_values st1) k' (D st1) fv')
    as [[k'' d''] fv''] eqn:Habv'.
  eexists. 
  assert (Hsolved : solved_wf (solve umfpack (set_KDF st1 k'' d'' fv''))).
  { split; [exact Ho|]. split; [exact Hp|]. split; [exact Hq|].
    split; [exact Hwf|].
    cbn [solve set_KDF D nodeLocation K F st1].
    rewrite Humf. specialize (Habv (boundary_values st1) k' (D st1) fv').
    rewrite Habv' in Habv. cbn [snd] in Habv. rewrite Habv, Hlen.
    cbn [F st1]. rewrite !length_replicate. unfold n_dofs. lia. }
  destruct (l2norm_of_error_ok _ Hsolved) as [_ Hnorm].
  eexists. split; [reflexivity|]. split; [reflexivity|].
  split; [exact Hsolved | exact Hnorm].
Qed.

End Run.

Lemma run_returns_witness :
  exists st1 st2 e,
    prepare 1 1 2 (dof_handler two_elements) = Ok st1
    ∧ assemble_system (fun _ k d fv => (k, d, fv)) st1 = Ok st2
    ∧ solved_wf (solve (fun _ fv => fv) st2)
    ∧ l2norm_of_error (solve (fun _ fv => fv) st2) = Ok e.
Proof.
  apply (run_returns 1 1 2 (dof_handler two_elements)
           (fun _ k d fv => (k, d, fv)) (fun _ fv => fv)).
  - lia.
  - left. reflexivity.
  - repeat constructor.
  - reflexivity.
  - reflexivity.
Defined.

(** *** The exact solution and the error norm over the reals *)

Section RealExact.
Local Open Scope R_scope.
Implicit Types (st : FEM R).

(** X10. The exact solution that [l2norm_of_error] compares with takes the
    prescribed value [g1] at [x = 0] in both problems, and in problem 1 the
    prescribed value [g2] at [x = L] (for [L] not zero, whatever [E]). *)
Theorem exact_solution_boundary_values st (u_exact : option R) :
  prob st = 1%nat ∨ prob st = 2%nat ->
  exact_solution st u_exact 0 = Some (g1 st)
  ∧ (prob st = 1%nat -> L st <> 0 ->
     exact_solution st u_exact (L st) = Some (g2 st)).
Proof.
  intros Hp. split.
  - destruct Hp as [Hp | Hp]; unfold exact_solution; rewrite Hp;
      decide_tests; f_equal; unfold_R; unfold Rdiv; ring.
  - intros Hp1 HL. unfold exact_solution. rewrite Hp1. decide_tests.
    f_equal. unfold_R. unfold Rdiv.
    generalize (/ (6 * E st)). intros a. field. exact HL.
Qed.

End RealExact.

Lemma exact_solution_boundary_values_witness :
  exact_solution solved_line None 0%R = Some (g1 solved_line)
  ∧ (prob solved_line = 1%nat -> L solved_line <> 0%R ->
     exact_solution solved_line None (L solved_line)
     = Some (g2 solved_line)).
Proof.
  apply (exact_solution_boundary_values solved_line None).
  left. reflexivity.
Defined.

(** *** The quadrature rule *)

Section RealQuadrature.
Local Open Scope R_scope.
Implicit Types (st : FEM R).

(** The [k]-th moment of the installed rule: [sum_q weight_q xi_q^k]. *)
Lemma gauss_moment (k : nat) :
  dsum (T:=R) 0
    (fun q => entry (gauss_weights (T:=R)) q * entry (gauss_points (T:=R)) q ^ k)
    0 3
  = 5555555555555557 / 10000000000000000
    * (- (7745966692414834 / 10000000000000000)) ^ k
    + 8888888888888888 / 10000000000000000 * 0 ^ k
    + 5555555555555557 / 10000000000000000
      * (7745966692414834 / 10000000000000000) ^ k.
Proof.
  unfold dsum, entry, gauss_weights, gauss_points.
  cbn [seq foldl lookup list_lookup default from_option].
  unfold Datatypes.id. unfold_R. ring.
Qed.

(** X11. The rule that [setup_system] installs integrates the monomials
    [1, xi, ..., xi^5] over [-1, 1] to within [10^-15]: the odd ones exactly
    (to 0), the even ones to within [10^-15] of [2], [2/3] and [2/5].  It is
    the three-point Gauss rule up to the rounding of its decimals, accurate
    for the polynomials of degree at most 5 that the loops over [q] sum. *)
Theorem quadrature_moments (dh : DoFHandler R) st st' :
  setup_system dh st = Ok st' ->
  let moment := fun k : nat =>
    dsum (T:=R) 0
      (fun q => entry (quad_weight st') q * entry (quad_points st') q ^ k)
      0 (quadRule st') in
  Rabs (moment 0%nat - 2) <= / 10 ^ 15
  ∧ moment 1%nat = 0
  ∧ Rabs (moment 2%nat - 2 / 3) <= / 10 ^ 15
  ∧ moment 3%nat = 0
  ∧ Rabs (moment 4%nat - 2 / 5) <= / 10 ^ 15
  ∧ moment 5%nat = 0.
Proof.
  intros Hrun.
  destruct (setup_system_ok dh st) as (st0 & Hrun0 & Hq & Hp & Hw).
  rewrite Hrun in Hrun0. injection Hrun0 as <-.
  cbv zeta. rewrite Hq, Hp, Hw. rewrite !gauss_moment.
  repeat split; try (apply Rabs_le; split); try field; lra.
Qed.

End RealQuadrature.

Lemma quadrature_moments_witness :
  exists st' : FEM R,
    setup_system two_elements_R (order_state 1) = Ok st'
    ∧ let moment := fun k : nat =>
        dsum (T:=R) 0%R
          (fun q => (entry (quad_weight st') q
                     * entry (quad_points st') q ^ k)%R)
          0 (quadRule st') in
      (Rabs (moment 0%nat - 2) <= / 10 ^ 15
       ∧ moment 1%nat = 0
       ∧ Rabs (moment 2%nat - 2 / 3) <= / 10 ^ 15
       ∧ moment 3%nat = 0
       ∧ Rabs (moment 4%nat - 2 / 5) <= / 10 ^ 15
       ∧ moment 5%nat = 0)%R.
Proof.
  destruct (setup_system_ok two_elements_R (order_state 1))
    as (st' & Hrun & _).
  exists st'. split; [exact Hrun|].
  exact (quadrature_moments two_elements_R (order_state 1) st' Hrun).
Defined.

Section RealNorm.
Local Open Scope R_scope.
Implicit Types (st : FEM R).

Lemma errorTotal_integral st :
  errorTotal st (active_cells (dof_handler st)) (lit 0 0)
  = l2_error_integral st.
Proof.
  rewrite errorTotal_Rsum. unfold l2_error_integral.
  change (lit 0 0 : R) with 0. rewrite Rplus_0_l.
  apply Rsum_map_ext. intros local_dof_indices _.
  apply Rsum_map_ext. intros q _. apply errorIntegrand_R.
Qed.

(** X12. On a solved state whose elements have nonnegative length and whose
    quadrature weights are nonnegative, the total that [l2norm_of_error]
    accumulates is nonnegative, so the square root it returns is that of a
    nonnegative number: the value returned is nonnegative and its square is
    the accumulated total. *)
Theorem l2norm_of_error_squared st :
  solved_wf st ->
  (forall local_dof_indices,
     local_dof_indices ∈ active_cells (dof_handler st) ->
     0 <= elementLength st local_dof_indices) ->
  (forall q : nat, (q < quadRule st)%nat -> 0 <= entry (quad_weight st) q) ->
  exists e,
    l2norm_of_error st = Ok e
    ∧ 0 <= l2_error_integral st
    ∧ 0 <= e
    ∧ e * e = l2_error_integral st.
Proof.
  intros Hst Hlen Hw.
  destruct (l2norm_of_error_ok st Hst) as [_ Hnorm].
  rewrite errorTotal_integral in Hnorm.
  assert (Hpos : 0 <= l2_error_integral st).
  { unfold l2_error_integral. apply Rsum_map_nonneg.
    intros local_dof_indices Hcell. apply Rsum_map_nonneg.
    intros q Hq. apply elem_of_seq in Hq. cbv zeta.
    specialize (Hlen local_dof_indices Hcell).
    specialize (Hw q ltac:(lia)).
    apply Rmult_le_pos; [apply Rmult_le_pos|]; [apply pow2_ge_0 | lra | lra]. }
  exists (sqrt (l2_error_integral st)).
  split; [exact Hnorm|]. split; [exact Hpos|].
  split; [apply sqrt_pos | apply sqrt_sqrt; exact Hpos].
Qed.

End RealNorm.

Lemma l2norm_of_error_squared_witness :
  exists e,
    l2norm_of_error solved_line = Ok e
    ∧ (0 <= l2_error_integral solved_line)%R
    ∧ (0 <= e)%R
    ∧ (e * e)%R = l2_error_integral solved_line.
Proof.
  apply (l2norm_of_error_squared solved_line solved_line_wf).
  - intros cell Hcell.
    apply elem_of_cons in Hcell as [-> | Hcell];
      [|apply elem_of_cons in Hcell as [-> | Hcell];
        [|apply elem_of_nil in Hcell; destruct Hcell]].
    + unfold elementLength, nodeCoordinate, entry. cbn. unfold_R. lra.
    + unfold elementLength, nodeCoordinate, entry. cbn. unfold_R. lra.
  - intros q Hq. destruct q as [|[|[|q]]]; cbn in Hq; try lia;
      unfold entry; cbn; unfold_R; lra.
Defined.

(** *** Symmetry of the global stiffness matrix *)

Section RealSymmetry.
Local Open Scope R_scope.
Implicit Types (st : FEM R) (local_dof_indices : list nat).






End RealSymmetry.

